(** * Signaling relay of P2P-Web-File-Share: a shallow embedding of src/server.js

    The development models the WebSocket signaling service of [src/server.js]:
    the peer registry ([peers]), the pairing map ([partner]), the per-connection
    token bucket and idle timer, the heartbeat sweeper and the optional
    Redis fan-out.  Handlers are pure functions from the state before an event
    to the state after it together with the list of effects ([send], [publish],
    [close], [terminate], [ping]) they perform, in program order.

    Conventions:
    - a connection handle [ws] is named by the id minted for it;
    - an effect records the call, whether or not the socket or Redis accepts
      it ([send] and the [try] blocks swallow the exceptions);
    - [Date.now()] is an integer number of milliseconds that comes with the
      event; token amounts are exact rationals (the rounding of JavaScript
      doubles is not modelled, and the configured rate and burst are finite),
      and the theorems about the bucket are stated for inputs on which that
      rounding cannot change the outcome of a comparison;
    - [JSON.stringify(v).length] belongs to the runtime and is a parameter
      of the handlers;
    - the gauges [ws_clients] and [ws_pairs] and the logger are left out: no
      handler reads them. *)

From stdpp Require Import gmap strings list.
From Stdlib Require Import Ascii QArith Lqa.

Local Set Warnings "-register-all".
Local Open Scope string_scope.
Local Open Scope Z_scope.

(** ** JSON values, as produced by [JSON.parse] *)

Inductive json :=
| JNull
| JBool (b : bool)
| JNum (q : Q)
| JStr (s : string)
| JArr (items : list json)
| JObj (fields : list (string * json)).

(** A JavaScript value read out of a parsed message is a [json] or [undefined]
    ([None]). *)
Abbreviation jsval := (option json).

(** Truthiness ([if (v)], [!v], [v && ...], [v || ...]). *)
Definition truthy (v : jsval) : bool :=
  match v with
  | None | Some JNull => false
  | Some (JBool b) => b
  | Some (JNum q) => negb (Qeq_bool q 0)
  | Some (JStr s) => negb (String.eqb s "")
  | Some (JArr _) | Some (JObj _) => true
  end.

Fixpoint assoc (k : string) (fs : list (string * json)) : jsval :=
  match fs with
  | [] => None
  | (k', v) :: fs' => if String.eqb k' k then Some v else assoc k fs'
  end.

(** Property read [v.k] / [v?.k] / destructuring [{ k } = v] for the property
    names the server reads ([to], [from], [payload], [type], [sdp],
    [candidate]): only objects built by [JSON.parse] carry them; on any other
    value (and on [undefined] through [?.]) the read yields [undefined]. *)
Definition prop (k : string) (v : jsval) : jsval :=
  match v with
  | Some (JObj fs) => assoc k fs
  | _ => None
  end.

(** [v === 's'] for a string literal ['s']. *)
Definition is_str (v : jsval) (s : string) : bool :=
  match v with
  | Some (JStr s') => String.eqb s' s
  | _ => false
  end.

(** [typeof v === 'object'] *)
Definition typeof_object (v : jsval) : bool :=
  match v with
  | Some JNull | Some (JArr _) | Some (JObj _) => true
  | _ => false
  end.

(** ** Configuration ([env]) *)

Record env := Env {
  WS_MSG_RATE : Q;      (* tokens per second *)
  WS_MSG_BURST : Q;     (* bucket capacity *)
  useRedis : bool;      (* [useRedis && redisPub] *)
  REDIS_PREFIX : string
}.

Definition redisSignalsChannel (e : env) : string := REDIS_PREFIX e ++ "signals".

(** ** Messages written by the server and effects of a handler *)

Inductive server_msg :=
| Welcome (id : string)                     (* { type: 'welcome', id } *)
| Peers                                     (* { type: 'peers', peers: [] } *)
| Signal (from : jsval) (payload : json).   (* { from, type: 'signal', payload } *)

Definition busy_payload : json := JObj [("type", JStr "busy")].

Inductive effect :=
| Send (dest : string) (m : server_msg)         (* send(ws, m), ws named by its id *)
| Publish (channel : string) (m : json)         (* redisPub.publish(channel, JSON.stringify(m)) *)
| HSet (id : string)                            (* redisPub.hset(redisPeersKey, id, instanceId) *)
| HDel (id : string)                            (* redisPub.hdel(redisPeersKey, id) *)
| CloseWs (id : string) (code : Z) (reason : string)  (* ws.close(code, reason) *)
| Terminate (id : string)                       (* ws.terminate() *)
| Ping (id : string).                           (* ws.ping() *)

(** ** State *)

(** The idle timer [signalTimeout]: the handle is truthy while [Pending] and
    after it has [Fired]; [clearTimeout] followed by [signalTimeout = null]
    leaves it [Cleared]. *)
Inductive timer := Pending | Fired | Cleared.

(** Per-connection state: the fields of [ws] the server uses and the closure
    variable [signalTimeout]. *)
Record conn := Conn {
  isAlive : bool;
  rate : Q;            (* ws._bucket.cfg.rate *)
  burst : Q;           (* ws._bucket.cfg.burst *)
  tokens : Q;          (* ws._bucket.tokens *)
  last : Z;            (* ws._bucket.last, milliseconds *)
  signalTimeout : timer
}.

(** Process-wide state: the two Maps and the two counters. A connection
    handle stored in [peers] is named by its id. *)
Record relay := Relay {
  peers : gset string;
  partner : gmap string (option string);
  ws_errors : Z;
  ws_signals : list json     (* labels passed to wsSignalsCounter.inc, latest first *)
}.

Definition set_tokens (t : Q) (c : conn) : conn :=
  Conn (isAlive c) (rate c) (burst c) t (last c) (signalTimeout c).
Definition set_last (l : Z) (c : conn) : conn :=
  Conn (isAlive c) (rate c) (burst c) (tokens c) l (signalTimeout c).
Definition set_timer (t : timer) (c : conn) : conn :=
  Conn (isAlive c) (rate c) (burst c) (tokens c) (last c) t.
Definition set_alive (a : bool) (c : conn) : conn :=
  Conn a (rate c) (burst c) (tokens c) (last c) (signalTimeout c).

Definition set_partner (p : gmap string (option string)) (st : relay) : relay :=
  Relay (peers st) p (ws_errors st) (ws_signals st).
Definition inc_errors (st : relay) : relay :=
  Relay (peers st) (partner st) (ws_errors st + 1) (ws_signals st).
Definition inc_signals (label : json) (st : relay) : relay :=
  Relay (peers st) (partner st) (ws_errors st) (label :: ws_signals st).

(** [if (signalTimeout) { clearTimeout(signalTimeout); signalTimeout = null; }]
    (lines 370-373 and 433-436) *)
Definition cancel_idle (c : conn) : conn :=
  match signalTimeout c with
  | Cleared => c
  | _ => set_timer Cleared c
  end.

(** ** Token bucket (lines 313-328) *)

Definition Qlt_bool (a b : Q) : bool := negb (Qle_bool b a).
Definition Math_min (a b : Q) : Q := if Qle_bool a b then a else b.

(** [elapsed = Math.max(0, now - b.last) / 1000; b.last = now;
    b.tokens = Math.min(b.cfg.burst, b.tokens + elapsed * b.cfg.rate)] *)
Definition refill (now : Z) (c : conn) : conn :=
  let elapsed := (inject_Z (Z.max 0 (now - last c)) / 1000)%Q in
  set_tokens (Math_min (burst c) (tokens c + elapsed * rate c)%Q) (set_last now c).

Inductive rate_outcome :=
| RateClosed (c : conn)      (* tokens < 1: counter, ws.close(1008, 'rate'), return *)
| RatePassed (c : conn).     (* handler goes on with the frame *)

Definition rate_check (now : Z) (c : conn) : rate_outcome :=
  if Qlt_bool 0 (rate c) then
    let c1 := refill now c in
    if Qlt_bool (tokens c1) 1 then RateClosed c1
    else RatePassed (set_tokens (tokens c1 - 1)%Q c1)
  else RatePassed c.

(** ** Pairing helpers *)

(** [partner.get(x) || null] *)
Definition partner_of (x : string) (st : relay) : option string :=
  match partner st !! x with
  | Some (Some p) => if String.eqb p "" then None else Some p
  | _ => None
  end.

(** [(p && p !== other)] *)
Definition with_other (p : option string) (other : string) : bool :=
  match p with
  | Some x => negb (String.eqb x other)
  | None => false
  end.

(** [p === x] for a string [x] *)
Definition is_peer (p : option string) (x : string) : bool :=
  match p with
  | Some y => String.eqb y x
  | None => false
  end.

Definition is_null (p : option string) : bool :=
  match p with None => true | Some _ => false end.

Definition known_kinds : list string := ["offer"; "answer"; "candidate"; "bye"; "busy"].

Section Handlers.

(** [JSON.stringify(v).length], the serializer of the JavaScript runtime. *)
Variable stringify_length : json -> Z.

(** The validated environment. *)
Variable e : env.

(** ** [wss.on('connection')] (lines 287-310) *)

Definition on_connection (id : string) (now : Z) (st : relay) : conn * relay * list effect :=
  let c := Conn true (WS_MSG_RATE e) (WS_MSG_BURST e) (WS_MSG_BURST e) now Pending in
  let st' := Relay ({[id]} ∪ peers st) (<[id := None]> (partner st))
                   (ws_errors st) (ws_signals st) in
  (c, st', Send id (Welcome id) :: (if useRedis e then [HSet id] else [])).

(** The idle timer callback (lines 306-310): it runs once, only if it has not
    been cleared. *)
Definition on_idle_timeout (id : string) (c : conn) : conn * list effect :=
  match signalTimeout c with
  | Pending => (set_timer Fired c, [CloseWs id 1000 "idle"])
  | _ => (c, [])
  end.

(** ** [ws.on('message')] (lines 312-417) *)

(** [payload?.f && JSON.stringify(payload.f).length > limit] *)
Definition oversized (payload : json) (f : string) (limit : Z) : bool :=
  match prop f (Some payload) with
  | Some v => truthy (Some v) && (limit <? stringify_length v)
  | None => false
  end.

(** Lines 360-416: the destination [to] is connected here. *)
Definition relay_local (id to : string) (payload : json) (c : conn) (st : relay)
  : conn * relay * list effect :=
  let pFrom := partner_of id st in
  let pTo := partner_of to st in
  let kind := prop "type" (Some payload) in
  if negb (existsb (is_str kind) known_kinds) then (c, st, [])
  else if oversized payload "sdp" 200000 then (c, st, [])
  else if oversized payload "candidate" 50000 then (c, st, [])
  else
    (* First valid signaling message cancels idle timeout *)
    let c := cancel_idle c in
    let conflict := with_other pFrom to || with_other pTo id in
    if is_str kind "offer" && conflict then
      (c, st, [Send id (Signal (Some (JStr to)) busy_payload)])
    else if is_str kind "answer" && conflict then
      (c, st, [])
    else
      let m0 := partner st in
      let m1 := if is_str kind "offer" then <[id := Some to]> m0 else m0 in
      let m2 := if is_str kind "answer" then <[to := Some id]> (<[id := Some to]> m1) else m1 in
      let m3 := if is_str kind "bye" && is_peer pFrom to then <[id := None]> m2 else m2 in
      let m4 := if is_str kind "bye" && is_peer pTo id then <[to := None]> m3 else m3 in
      if is_str kind "candidate"
         && negb (is_peer pFrom to || is_peer pTo id || (is_null pFrom && is_null pTo))
      then (c, set_partner m4 st, [])
      else
        let label := if truthy kind then default JNull kind else JStr "unknown" in
        (c, inc_signals label (set_partner m4 st),
         [Send to (Signal (Some (JStr id)) payload)]).

(** Lines 329-358: parsing, envelope validation, [list], destination lookup.
    [data] is the outcome of [JSON.parse(data.toString())]: [None] when it
    throws. *)
Definition handle_frame (id : string) (data : option json) (c : conn) (st : relay)
  : conn * relay * list effect :=
  match data with
  | None => (c, inc_errors st, [])
  | Some msg =>
    let m := if truthy (Some msg) then Some msg else Some (JObj []) in
    let to := prop "to" m in
    let payload := prop "payload" m in
    let type := prop "type" m in
    match to, payload with
    | Some (JStr to), Some payload =>
      if negb (truthy (Some payload)) || negb (typeof_object (Some payload)) then
        (c, inc_errors st, [])
      else if is_str type "list" then
        (c, st, [Send id Peers])
      else if negb (bool_decide (to ∈ peers st)) then
        (c, st,
         if useRedis e then
           [Publish (redisSignalsChannel e)
              (JObj [("to", JStr to); ("from", JStr id); ("payload", payload);
                     ("type", JStr "signal")])]
         else [])
      else relay_local id to payload c st
    | _, _ => (c, inc_errors st, [])
    end
  end.

Definition on_message (id : string) (now : Z) (data : option json) (c : conn) (st : relay)
  : conn * relay * list effect :=
  match rate_check now c with
  | RateClosed c' => (c', inc_errors st, [CloseWs id 1008 "rate"])
  | RatePassed c' => handle_frame id data c' st
  end.

(** ** [ws.on('close')] (lines 419-441) *)

Definition on_close (id : string) (c : conn) (st : relay) : conn * relay * list effect :=
  let p := partner_of id st in
  let m1 := delete id (partner st) in
  let m2 := match p with
            | Some p' => if bool_decide (m1 !! p' = Some (Some id)) then <[p' := None]> m1 else m1
            | None => m1
            end in
  (cancel_idle c, Relay (peers st ∖ {[id]}) m2 (ws_errors st) (ws_signals st),
   if useRedis e then [HDel id] else []).

(** ** Heartbeat (lines 223-226 and 444-458) *)

(** [heartbeat], the ['pong'] listener. *)
Definition heartbeat (c : conn) : conn := set_alive true c.

(** The body of the sweep for one client of [wss.clients]. *)
Definition sweep_client (id : string) (c : conn) : conn * list effect :=
  if negb (isAlive c) then (c, [Terminate id])
  else (set_alive false c, [Ping id]).

(** ** Redis subscriber (lines 524-543) *)

Definition on_bus_message (channel : string) (message : option json) (st : relay)
  : relay * list effect :=
  if negb (String.eqb channel (redisSignalsChannel e)) then (st, [])
  else
    match message with
    | None => (st, [])
    | Some msg =>
      let m := if truthy (Some msg) then Some msg else Some (JObj []) in
      let to := prop "to" m in
      let from := prop "from" m in
      let payload := prop "payload" m in
      let type := prop "type" m in
      match to, payload with
      | Some (JStr to), Some payload =>
        if negb (is_str type "signal") || negb (truthy (Some payload)) then (st, [])
        else if negb (bool_decide (to ∈ peers st)) then (st, [])
        else
          let k := prop "type" (Some payload) in
          let label := if truthy k then default JNull k else JStr "unknown" in
          (inc_signals label st, [Send to (Signal from payload)])
      | _, _ => (st, [])
      end
    end.

End Handlers.

(** ** The server as a transition system *)

(** The process state and the open connections ([wss.clients]), each under
    the id minted for it. *)
Record system := System {
  rstate : relay;
  conns : gmap string conn
}.

Inductive event :=
| EvConnect (id : string) (now : Z)                       (* 'connection', id = uuidv4() *)
| EvMessage (id : string) (now : Z) (data : option json)  (* 'message' on connection id *)
| EvClose (id : string)                                   (* 'close' on connection id *)
| EvIdle (id : string)                                    (* the 60 s timer of connection id *)
| EvPong (id : string)                                    (* 'pong' on connection id *)
| EvSweep                                                 (* one tick of hbInterval *)
| EvBus (channel : string) (message : option json).       (* redisSub 'message' *)

Definition initial : system := System (Relay ∅ ∅ 0 []) ∅.

Section System.

Variable stringify_length : json -> Z.
Variable e : env.

Definition step (ev : event) (s : system) : system * list effect :=
  match ev with
  | EvConnect id now =>
    let '(c, st, out) := on_connection e id now (rstate s) in
    (System st (<[id := c]> (conns s)), out)
  | EvMessage id now data =>
    match conns s !! id with
    | Some c =>
      let '(c', st, out) := on_message stringify_length e id now data c (rstate s) in
      (System st (<[id := c']> (conns s)), out)
    | None => (s, [])
    end
  | EvClose id =>
    match conns s !! id with
    | Some c =>
      let '(_, st, out) := on_close e id c (rstate s) in
      (System st (delete id (conns s)), out)
    | None => (s, [])
    end
  | EvIdle id =>
    match conns s !! id with
    | Some c =>
      let '(c', out) := on_idle_timeout id c in
      (System (rstate s) (<[id := c']> (conns s)), out)
    | None => (s, [])
    end
  | EvPong id =>
    match conns s !! id with
    | Some c => (System (rstate s) (<[id := heartbeat c]> (conns s)), [])
    | None => (s, [])
    end
  | EvSweep =>
    (System (rstate s) (map_imap (λ id c, Some (sweep_client id c).1) (conns s)),
     concat (map (λ ic, (sweep_client ic.1 ic.2).2) (map_to_list (conns s))))
  | EvBus channel message =>
    let '(st, out) := on_bus_message e channel message (rstate s) in
    (System st (conns s), out)
  end.

(** Running a sequence of events, collecting the effects in order. *)
Fixpoint run (evs : list event) (s : system) : system * list effect :=
  match evs with
  | [] => (s, [])
  | ev :: evs' =>
    let '(s1, out1) := step ev s in
    let '(s2, out2) := run evs' s1 in
    (s2, (out1 ++ out2)%list)
  end.

End System.

(** ** Sample data for the examples below *)

(** A serializer length that is exact on strings made of characters that
    [JSON.stringify] does not escape (the two quotes are counted); the examples
    apply it to such strings only. *)
Definition quoted_length (v : json) : Z :=
  match v with
  | JStr s => Z.of_nat (String.length s) + 2
  | _ => 0
  end.

(** The default environment of [cleanEnv]: rate 20, burst 40, no Redis. *)
Definition default_env : env := Env 20 40 false "p2pws:".
Definition redis_env : env := Env 20 40 true "p2pws:".

Definition envelope (to : string) (payload : json) : json :=
  JObj [("to", JStr to); ("payload", payload)].
Definition of_kind (k : string) : json := JObj [("type", JStr k)].

(** A frame that passes the envelope validation of lines 337-347 and is not
    a [list] request: [to] is the string [to], [payload] is a truthy object. *)
Definition signal_envelope (msg : json) (to : string) (payload : json) : Prop :=
  prop "to" (Some msg) = Some (JStr to) ∧
  prop "payload" (Some msg) = Some payload ∧
  truthy (Some payload) = true ∧
  typeof_object (Some payload) = true ∧
  is_str (prop "type" (Some msg)) "list" = false.

(** [payload.type] is the string [k] and both size guards let the payload
    through. *)
Definition sized_kind (len : json -> Z) (payload : json) (k : string) : Prop :=
  prop "type" (Some payload) = Some (JStr k) ∧
  oversized len payload "sdp" 200000 = false ∧
  oversized len payload "candidate" 50000 = false.

(** The conflict test of the offer and answer branches (lines 377 and 388). *)
Definition conflict (id to : string) (st : relay) : bool :=
  with_other (partner_of id st) to || with_other (partner_of to st) id.

(** The candidate gate (line 404). *)
Definition candidate_gate (id to : string) (st : relay) : bool :=
  is_peer (partner_of id st) to || is_peer (partner_of to st) id
  || (is_null (partner_of id st) && is_null (partner_of to st)).

(** An offer whose session description is a string of 200,000 letters: its
    serialization has 200,002 characters. *)
Fixpoint letters (n : nat) : string :=
  match n with
  | O => ""
  | S n' => String "v"%char (letters n')
  end.
Definition big_offer : json :=
  JObj [("type", JStr "offer"); ("sdp", JStr (letters (200 * 1000)))].

(** A connection as [on_connection] leaves it under [default_env] at time 0,
    and the same connection after one frame has passed the rate check. *)
Definition fresh_conn : conn := Conn true 20 40 40 0 Pending.
Definition fresh_conn_1 : conn := Conn true 20 40 39 0 Pending.

(** Registries with peers A, B (and C) connected. *)
Definition two_free : relay :=
  Relay {["A"; "B"]} {["A" := None; "B" := None]} 0 [].
Definition three_paired : relay :=
  Relay {["A"; "B"; "C"]} {["A" := Some "B"; "B" := Some "A"; "C" := None]} 0 [].

(** The envelope test of line 338, as a boolean: [typeof to === 'string'] and
    [payload] is a truthy object. *)
Definition envelope_ok (msg : json) : bool :=
  match prop "to" (Some msg), prop "payload" (Some msg) with
  | Some (JStr _), Some p => truthy (Some p) && typeof_object (Some p)
  | _, _ => false
  end.

(** A frame that fails framing or envelope validation: malformed JSON, or a
    missing or mistyped [to] or [payload]. *)
Definition invalid_frame (data : option json) : bool :=
  match data with
  | None => true
  | Some msg => negb (envelope_ok msg)
  end.

(** The kind and size guards of lines 364-367 reject the payload. *)
Definition rejected_payload (len : json -> Z) (payload : json) : bool :=
  negb (existsb (is_str (prop "type" (Some payload))) known_kinds)
  || oversized len payload "sdp" 200000
  || oversized len payload "candidate" 50000.

(** The tokens in the bucket right after the refill of a frame arriving at
    [now]. *)
Definition avail (now : Z) (c : conn) : Q := tokens (refill now c).

Definition is_close (x : effect) : bool :=
  match x with
  | CloseWs _ _ _ => true
  | _ => false
  end.

(** Frames arriving one after the other on one connection, with nothing else
    happening in between; each comes with the value of [Date.now()] at its
    arrival. *)
Fixpoint feed (len : json -> Z) (e : env) (id : string)
    (frames : list (Z * option json)) (c : conn) (st : relay)
  : conn * relay * list effect :=
  match frames with
  | [] => (c, st, [])
  | (now, data) :: rest =>
    let '(c1, st1, out1) := on_message len e id now data c st in
    let '(c2, st2, out2) := feed len e id rest c1 st1 in
    (c2, st2, (out1 ++ out2)%list)
  end.

(** ** One connection under the heartbeat *)

(** What happens to one client: a ['pong'] arrives, or the sweeper of
    [hbInterval] visits it. *)
Inductive hb_event := HbPong | HbSweep.

Definition hb_step (id : string) (ev : hb_event) (c : conn) : conn * list effect :=
  match ev with
  | HbPong => (heartbeat c, [])
  | HbSweep => sweep_client id c
  end.

Fixpoint hb_run (id : string) (evs : list hb_event) (c : conn) : conn * list effect :=
  match evs with
  | [] => (c, [])
  | ev :: evs' =>
    let '(c1, out1) := hb_step id ev c in
    let '(c2, out2) := hb_run id evs' c1 in
    (c2, (out1 ++ out2)%list)
  end.

Definition is_terminate (x : effect) : bool :=
  match x with
  | Terminate _ => true
  | _ => false
  end.

Definition is_ping (x : effect) : bool :=
  match x with
  | Ping _ => true
  | _ => false
  end.

(** The first time the sweeper terminates the client. [ack] and [pings] are
    bookkeeping of the observer, not of the server: the time at which the
    client was last marked alive (on connect or by a pong) and the number of
    pings written to it since. The result is the time of the terminating
    sweep with the bookkeeping at that moment. *)
Fixpoint first_termination (id : string) (tr : list (Z * hb_event)) (c : conn)
    (ack : Z) (pings : nat) : option (Z * Z * nat) :=
  match tr with
  | [] => None
  | (t, HbPong) :: rest => first_termination id rest (hb_step id HbPong c).1 t 0
  | (t, HbSweep) :: rest =>
    let '(c', out) := hb_step id HbSweep c in
    if existsb is_terminate out then Some (t, ack, pings)
    else first_termination id rest c' ack (pings + List.length (filter is_ping out))
  end.

(** The timer of [setInterval(..., 30_000)] taken as exact: the sweeps are
    those due at [next], [next + 30000], ... and every pong falls between
    the sweep before it and the sweep after it. *)
Fixpoint periodic (next : Z) (tr : list (Z * hb_event)) : Prop :=
  match tr with
  | [] => True
  | (t, HbPong) :: rest => next - 30000 ≤ t ≤ next ∧ periodic next rest
  | (t, HbSweep) :: rest => t = next ∧ periodic (next + 30000) rest
  end.

(** Two sweeps in a row: the ping of the first was not acknowledged before
    the second. *)
Fixpoint missed_ack (tr : list (Z * hb_event)) : bool :=
  match tr with
  | (_, HbSweep) :: (((_, HbSweep) :: _) as rest) => true
  | _ :: rest => missed_ack rest
  | [] => false
  end.

(** Invariant I2 on the pairing map: no peer is recorded as its own partner. *)
Definition self_free (m : gmap string (option string)) : Prop :=
  ∀ x, m !! x ≠ Some (Some x).

(** An offer or an answer that a connection addresses to its own id. *)
Definition self_addressed (ev : event) : bool :=
  match ev with
  | EvMessage id _ (Some msg) =>
    let kind := prop "type" (prop "payload" (Some msg)) in
    is_str (prop "to" (Some msg)) id && (is_str kind "offer" || is_str kind "answer")
  | _ => false
  end.

(** ** The allow-list of origins (lines 49-53)

    Strings are sequences of code units below 256; in that range the white
    space that [trim] removes is TAB, LF, VT, FF, CR, SPACE and NBSP. *)

(** [s.split(sep)] for a one-character separator. *)
Fixpoint split_on (sep : ascii) (s : string) : list string :=
  match s with
  | EmptyString => [EmptyString]
  | String ch rest =>
    if Ascii.eqb ch sep then EmptyString :: split_on sep rest
    else match split_on sep rest with
         | first :: others => String ch first :: others
         | [] => [String ch EmptyString]
         end
  end.

Definition is_space (ch : ascii) : bool :=
  let n := nat_of_ascii ch in
  ((9 <=? n) && (n <=? 13) || (n =? 32) || (n =? 160))%nat.
Arguments is_space : simpl never.

Fixpoint trim_start (s : string) : string :=
  match s with
  | EmptyString => EmptyString
  | String ch rest => if is_space ch then trim_start rest else s
  end.

Fixpoint trim_end (s : string) : string :=
  match s with
  | EmptyString => EmptyString
  | String ch rest =>
    match trim_end rest with
    | EmptyString => if is_space ch then EmptyString else String ch EmptyString
    | rest' => String ch rest'
    end
  end.

(** [s.trim()] *)
Definition trim (s : string) : string := trim_end (trim_start s).

(** [String(env.ALLOWED_ORIGINS || '').split(',').map((s) => s.trim()).filter(Boolean)] *)
Definition parse_origins (raw : string) : list string :=
  List.filter (λ s, negb (String.eqb s "")) (map trim (split_on "," raw)).

Fixpoint has_char (ch : ascii) (s : string) : bool :=
  match s with
  | EmptyString => false
  | String ch' rest => Ascii.eqb ch' ch || has_char ch rest
  end.

Definition starts_with_space (s : string) : bool :=
  match s with
  | EmptyString => false
  | String ch _ => is_space ch
  end.

Fixpoint ends_with_space (s : string) : bool :=
  match s with
  | EmptyString => false
  | String ch EmptyString => is_space ch
  | String _ rest => ends_with_space rest
  end.

(** An origin as it can stand in the allow-list: not empty, no comma, no
    white space at either end. *)
Definition clean_origin (s : string) : bool :=
  negb (String.eqb s "") && negb (has_char "," s)
  && negb (starts_with_space s) && negb (ends_with_space s).

(** ** The upgrade gate (lines 228-285) and the per-IP counter *)

Record gateway_env := GatewayEnv {
  WS_PATH : string;
  ALLOWED_ORIGINS : string;
  MAX_IP_CONNS : Q
}.

(** What the gate reads of an upgrade request; a missing header or
    property is [None]. *)
Record upgrade_req := UpgradeReq {
  req_url : option string;
  hdr_origin : option string;
  hdr_host : option string;
  hdr_xff : option string;         (* headers['x-forwarded-for'] *)
  remoteAddress : option string    (* req.socket.remoteAddress *)
}.

Inductive upgrade_outcome :=
| NotFound           (* 404, socket destroyed *)
| Forbidden          (* 403, socket destroyed *)
| TooManyRequests    (* 429, socket destroyed *)
| Upgraded.          (* handed to wss.handleUpgrade *)

(** [x || ''] for a string or [undefined] *)
Definition or_empty (x : option string) : string := default "" x.

(** [(req.headers['x-forwarded-for'] || req.socket.remoteAddress || '').toString()] *)
Definition client_ip (req : upgrade_req) : string :=
  if negb (String.eqb (or_empty (hdr_xff req)) "") then or_empty (hdr_xff req)
  else or_empty (remoteAddress req).

(** [ipConnCount.get(ip) || d] *)
Definition count_or (d : Z) (ip : string) (cnt : gmap string Z) : Z :=
  match cnt !! ip with
  | Some v => if v =? 0 then d else v
  | None => d
  end.

Section Gateway.

(** [new URL(origin).host], or [None] when the constructor throws. *)
Variable url_host : string -> option string.

Variable g : gateway_env.

Definition origin_allowed (origin host : string) : bool :=
  let allowed := parse_origins (ALLOWED_ORIGINS g) in
  if negb (Nat.eqb (List.length allowed) 0) then
    existsb (String.eqb origin) allowed
  else if String.eqb origin "" then false
  else match url_host origin with
       | Some h => String.eqb h host
       | None => false
       end.

Definition on_upgrade (req : upgrade_req) (cnt : gmap string Z)
  : gmap string Z * upgrade_outcome :=
  let url := or_empty (req_url req) in
  if String.eqb url "" || negb (String.prefix (WS_PATH g) url) then (cnt, NotFound)
  else if negb (origin_allowed (or_empty (hdr_origin req)) (or_empty (hdr_host req)))
  then (cnt, Forbidden)
  else
    let ip := client_ip req in
    let c := count_or 0 ip cnt + 1 in
    if Qlt_bool (MAX_IP_CONNS g) (inject_Z c) then (cnt, TooManyRequests)
    else (<[ip := c]> cnt, Upgraded).

(** The decrement of the ['close'] handler (lines 426-432). *)
Definition release_ip (req : upgrade_req) (cnt : gmap string Z) : gmap string Z :=
  let ip := client_ip req in
  let c := count_or 1 ip cnt - 1 in
  if c <=? 0 then delete ip cnt else <[ip := c]> cnt.

(** The gate with the upgrades it has counted and that no ['close'] handler
    has released yet, each with its request. The handshake of
    [wss.handleUpgrade] and the 10 s socket timeout that follow the count are
    not modelled: an upgrade whose handshake fails is counted and never
    released, so it stays in [open_reqs] for good. *)
Record gateway := Gateway {
  ipConnCount : gmap string Z;
  open_reqs : list upgrade_req
}.

(** The request as the ['close'] handler reads it: the headers are those of
    the upgrade, [req.socket.remoteAddress] is read again. *)
Definition at_close (req : upgrade_req) (addr : option string) : upgrade_req :=
  UpgradeReq (req_url req) (hdr_origin req) (hdr_host req) (hdr_xff req) addr.

Inductive gw_event :=
| GwUpgrade (req : upgrade_req)             (* 'upgrade' *)
| GwClose (i : nat) (addr : option string). (* 'close' of the i-th open connection *)

Definition gw_step (ev : gw_event) (s : gateway) : gateway * option upgrade_outcome :=
  match ev with
  | GwUpgrade req =>
    let '(cnt, r) := on_upgrade req (ipConnCount s) in
    (Gateway cnt (match r with Upgraded => req :: open_reqs s | _ => open_reqs s end),
     Some r)
  | GwClose i addr =>
    match open_reqs s !! i with
    | Some req =>
      (Gateway (release_ip (at_close req addr) (ipConnCount s)) (delete i (open_reqs s)),
       None)
    | None => (s, None)
    end
  end.

Fixpoint gw_run (evs : list gw_event) (s : gateway) : gateway :=
  match evs with
  | [] => s
  | ev :: evs' => gw_run evs' (gw_step ev s).1
  end.

(** Every close reads the same client address as the upgrade did. *)
Fixpoint addresses_stable (evs : list gw_event) (s : gateway) : Prop :=
  match evs with
  | [] => True
  | ev :: evs' =>
    match ev with
    | GwClose i addr =>
      match open_reqs s !! i with
      | Some req => client_ip (at_close req addr) = client_ip req
      | None => True
      end
    | GwUpgrade _ => True
    end ∧ addresses_stable evs' (gw_step ev s).1
  end.

(** The number of open connections whose request carries the address [ip]. *)
Definition open_from (ip : string) (s : gateway) : Z :=
  Z.of_nat (List.length (List.filter (λ r, String.eqb (client_ip r) ip) (open_reqs s))).

End Gateway.

(** ** [calcPairs] (lines 507-522) *)

(** The key under which a pair is remembered:
    [a < b ? `${a}|${b}` : `${b}|${a}`]. *)
Definition pair_key (a b : string) : string :=
  if String.ltb a b then a ++ "|" ++ b else b ++ "|" ++ a.

(** One turn of the loop, for the entry [[a, b]]. *)
Definition count_entry (m : gmap string (option string))
    (acc : gset string * Z) (entry : string * option string) : gset string * Z :=
  match entry.2 with
  | Some b =>
    if String.eqb b "" then acc
    else if bool_decide (m !! b = Some (Some entry.1)) then
      let key := pair_key entry.1 b in
      if bool_decide (key ∈ acc.1) then acc
      else ({[key]} ∪ acc.1, acc.2 + 1)
    else acc
  | None => acc
  end.

(** The loop over [partner.entries()], given in the order of iteration. *)
Definition calcPairs_over (entries : list (string * option string))
    (m : gmap string (option string)) : Z :=
  (foldl (count_entry m) (∅, 0) entries).2.

Definition calcPairs (m : gmap string (option string)) : Z :=
  calcPairs_over (map_to_list m) m.

(** The key that the entry [[a, b]] contributes, if it passes the two tests
    of the loop. *)
Definition entry_key (m : gmap string (option string))
    (entry : string * option string) : option string :=
  match entry.2 with
  | Some b =>
    if String.eqb b "" then None
    else if bool_decide (m !! b = Some (Some entry.1)) then Some (pair_key entry.1 b)
    else None
  | None => None
  end.

(** The entry [[a, b]] is one half of a mutual pairing, and it is the half
    with the smaller key. *)
Definition canonical_half (m : gmap string (option string))
    (entry : string * option string) : bool :=
  match entry.2 with
  | Some b => bool_decide (m !! b = Some (Some entry.1)) && String.leb entry.1 b
  | None => false
  end.

(** The registries agree: the pairing map and the table of open connections
    have an entry for exactly the ids of the peer registry. *)
Definition registry_ok (s : system) : Prop :=
  dom (partner (rstate s)) = peers (rstate s) ∧ dom (conns s) = peers (rstate s).

(** [send(ws, ...)] to the connection [id]. *)
Definition is_send_to (id : string) (x : effect) : bool :=
  match x with
  | Send d _ => String.eqb d id
  | _ => false
  end.

(** The idle timer of [id] can no longer fire: it has fired or was cleared,
    or the connection is gone. *)
Definition timer_spent (s : system) (id : string) : Prop :=
  ∀ c, conns s !! id = Some c → signalTimeout c ≠ Pending.

Definition is_connect_of (id : string) (ev : event) : bool :=
  match ev with
  | EvConnect d _ => String.eqb d id
  | _ => false
  end.


(** Frames that are at least [k] whole seconds apart: between a frame and
    the one before it (or the last refill, for the first) at least [1000 * k]
    milliseconds pass. *)
Fixpoint spaced (k : Z) (prev : Z) (frames : list (Z * option json)) : Prop :=
  match frames with
  | [] => True
  | (t, _) :: rest => 1000 * k ≤ t - prev ∧ spaced k t rest
  end.

(** A and B connected, and A has sent B an offer: A's idle timer is
    cleared. *)
Definition after_first_offer : system :=
  (run quoted_length default_env
     [EvConnect "A" 0; EvConnect "B" 0;
      EvMessage "A" 1 (Some (envelope "B" (of_kind "offer")))] initial).1.

(** For the examples of the upgrade gate: the hosts of the origins that
    occur in them; no other origin is used there. *)
Definition example_url_host (origin : string) : option string :=
  if String.eqb origin "https://example.com" then Some "example.com"
  else if String.eqb origin "http://localhost:5173" then Some "localhost:5173"
  else None.

Definition production_gateway : gateway_env :=
  GatewayEnv "/ws" "https://example.com, https://www.example.com" 2.
Definition local_gateway : gateway_env := GatewayEnv "/ws" "" 50.

Definition upgrade_from (origin host addr : string) : upgrade_req :=
  UpgradeReq (Some "/ws") (Some origin) (Some host) None (Some addr).

(** The counter of every address is the number of its open connections (no
    entry when there is none), and that number respects the quota. *)
Definition counts_exact (g : gateway_env) (s : gateway) : Prop :=
  ∀ ip, ipConnCount s !! ip
        = (if open_from ip s =? 0 then None else Some (open_from ip s))
        ∧ (0 < open_from ip s → (inject_Z (open_from ip s) <= MAX_IP_CONNS g)%Q).

(** A and B are paired with each other, C is Free, and D has dialed A in
    vain. *)
Definition one_pair_map : gmap string (option string) :=
  {["A" := Some "B"; "B" := Some "A"; "C" := None; "D" := Some "A"]}.

(** The event is the close of [a] or a connection under the id [a] or
    [b]. *)
Definition resets_dialing (a b : string) (ev : event) : bool :=
  match ev with
  | EvClose d => String.eqb d a
  | EvConnect d _ => String.eqb d a || String.eqb d b
  | _ => false
  end.

(** A has dialed B and B has closed without answering; C is connected. *)
Definition callee_left : system :=
  (run quoted_length default_env
     [EvConnect "A" 0; EvConnect "B" 0; EvConnect "C" 0;
      EvMessage "A" 1 (Some (envelope "B" (of_kind "offer")));
      EvClose "B"] initial).1.

(** A has dialed B; B and C are Free. *)
Definition a_dialing_b : relay :=
  Relay {["A"; "B"; "C"]} {["A" := Some "B"; "B" := None; "C" := None]} 0 [].

(** * Basic facts about the handlers *)

Lemma prop_or_empty k msg :
  prop k (if truthy (Some msg) then Some msg else Some (JObj [])) = prop k (Some msg).
Proof. destruct msg; simpl; try done; by destruct (negb _) || destruct b. Qed.

Lemma set_partner_id st : set_partner (partner st) st = st.
Proof. by destruct st. Qed.

Lemma handle_frame_signal len e id msg to payload c st :
  signal_envelope msg to payload →
  handle_frame len e id (Some msg) c st =
    if bool_decide (to ∈ peers st) then relay_local len id to payload c st
    else (c, st,
          if useRedis e then
            [Publish (redisSignalsChannel e)
               (JObj [("to", JStr to); ("from", JStr id); ("payload", payload);
                      ("type", JStr "signal")])]
          else []).
Proof.
  intros (Hto & Hp & Ht & Ho & Hl). unfold handle_frame.
  rewrite !prop_or_empty, Hto, Hp, Ht, Ho, Hl. simpl.
  by destruct (bool_decide _).
Qed.

Lemma on_message_passed len e id now data c c1 st :
  rate_check now c = RatePassed c1 →
  on_message len e id now data c st = handle_frame len e id data c1 st.
Proof. intros H. unfold on_message. by rewrite H. Qed.

Lemma on_message_local len e id now msg to payload c c1 st :
  rate_check now c = RatePassed c1 →
  signal_envelope msg to payload →
  to ∈ peers st →
  on_message len e id now (Some msg) c st = relay_local len id to payload c1 st.
Proof.
  intros Hr He Hin. rewrite (on_message_passed _ _ _ _ _ _ c1) by done.
  rewrite (handle_frame_signal _ _ _ _ to payload) by done.
  by rewrite bool_decide_eq_true_2.
Qed.

Lemma relay_local_busy len id to payload c st :
  sized_kind len payload "busy" →
  relay_local len id to payload c st =
    (cancel_idle c, inc_signals (JStr "busy") st, [Send to (Signal (Some (JStr id)) payload)]).
Proof.
  intros (Hk & Hs & Hc). unfold relay_local. rewrite Hk, Hs, Hc. simpl.
  by rewrite set_partner_id.
Qed.

Lemma relay_local_offer len id to payload c st :
  sized_kind len payload "offer" →
  relay_local len id to payload c st =
    if conflict id to st
    then (cancel_idle c, st, [Send id (Signal (Some (JStr to)) busy_payload)])
    else (cancel_idle c,
          inc_signals (JStr "offer") (set_partner (<[id := Some to]> (partner st)) st),
          [Send to (Signal (Some (JStr id)) payload)]).
Proof.
  intros (Hk & Hs & Hc). unfold relay_local, conflict. rewrite Hk, Hs, Hc. simpl.
  by destruct (_ || _).
Qed.

Lemma relay_local_answer len id to payload c st :
  sized_kind len payload "answer" →
  relay_local len id to payload c st =
    if conflict id to st
    then (cancel_idle c, st, [])
    else (cancel_idle c,
          inc_signals (JStr "answer")
            (set_partner (<[to := Some id]> (<[id := Some to]> (partner st))) st),
          [Send to (Signal (Some (JStr id)) payload)]).
Proof.
  intros (Hk & Hs & Hc). unfold relay_local, conflict. rewrite Hk, Hs, Hc. simpl.
  by destruct (_ || _).
Qed.

Lemma relay_local_candidate len id to payload c st :
  sized_kind len payload "candidate" →
  relay_local len id to payload c st =
    if candidate_gate id to st
    then (cancel_idle c, inc_signals (JStr "candidate") st,
          [Send to (Signal (Some (JStr id)) payload)])
    else (cancel_idle c, st, []).
Proof.
  intros (Hk & Hs & Hc). unfold relay_local, candidate_gate. rewrite Hk, Hs, Hc. simpl.
  rewrite set_partner_id. by destruct (_ || _ || _).
Qed.

(** * Inbound [busy] (claim C3) *)

(** C3, as stated, fails: A sends [{to: B, payload: {type: 'busy'}}] to a
    connected B, and the relay writes the relayed envelope to B. *)
Lemma busy_frame_reaches_destination :
  (run quoted_length default_env
     [EvConnect "A" 0; EvConnect "B" 0;
      EvMessage "A" 1 (Some (envelope "B" (of_kind "busy")))] initial).2
  = [Send "A" (Welcome "A"); Send "B" (Welcome "B");
     Send "B" (Signal (Some (JStr "A")) (of_kind "busy"))].
Proof. vm_compute. reflexivity. Qed.

(** C3 (amended): ['busy'] is on the kind whitelist. A frame whose
    [payload.type] is ["busy"], that passes the rate check, the envelope
    validation and the size guards and whose destination is connected here, is
    forwarded to the destination as [{from, type: 'signal', payload}] whatever
    the pairing state of either side; the pairing map is left as it was, the
    idle timer of the sender is cancelled and [ws_signals_total{kind="busy"}]
    is incremented. *)
Theorem busy_frame_is_forwarded len e id now msg to payload c c1 st :
  rate_check now c = RatePassed c1 →
  signal_envelope msg to payload →
  sized_kind len payload "busy" →
  to ∈ peers st →
  on_message len e id now (Some msg) c st =
    (cancel_idle c1, inc_signals (JStr "busy") st,
     [Send to (Signal (Some (JStr id)) payload)])
  ∧ partner (inc_signals (JStr "busy") st) = partner st.
Proof.
  intros Hr He Hk Hin. split; [|done].
  rewrite (on_message_local _ _ _ _ _ to payload _ c1) by done.
  by apply relay_local_busy.
Qed.

Lemma busy_frame_is_forwarded_witness :
  on_message quoted_length default_env "C" 0 (Some (envelope "A" (of_kind "busy")))
    fresh_conn three_paired =
    (cancel_idle fresh_conn_1, inc_signals (JStr "busy") three_paired,
     [Send "A" (Signal (Some (JStr "C")) (of_kind "busy"))])
  ∧ partner (inc_signals (JStr "busy") three_paired) = partner three_paired.
Proof.
  apply (busy_frame_is_forwarded quoted_length default_env "C" 0
           (envelope "A" (of_kind "busy")) "A" (of_kind "busy")
           fresh_conn fresh_conn_1 three_paired).
  - reflexivity.
  - repeat split.
  - repeat split.
  - unfold three_paired; simpl; set_solver.
Defined.

(** * The answer branch (claim C4) *)

(** C4, as stated, fails: A and B are both Free (A never dialed B, B never
    sent an offer); an answer from A to B is forwarded and pairs them. *)
Lemma answer_between_free_peers_pairs :
  let r := run quoted_length default_env
     [EvConnect "A" 0; EvConnect "B" 0;
      EvMessage "A" 1 (Some (envelope "B" (of_kind "answer")))] initial in
  r.2 = [Send "A" (Welcome "A"); Send "B" (Welcome "B");
         Send "B" (Signal (Some (JStr "A")) (of_kind "answer"))]
  ∧ partner (rstate r.1) !! "A" = Some (Some "B")
  ∧ partner (rstate r.1) !! "B" = Some (Some "A").
Proof. vm_compute. repeat split. Qed.

(** C4 (amended): an answer from A to a connected B that passes the rate
    check, the envelope validation and the size guards is dropped, with no
    write and the registries unchanged, exactly when A has a partner other
    than B or B has a partner other than A. Otherwise (each side Free, or
    already pointing at the other) it is forwarded to B and the map gets
    Pairing[A] := B and Pairing[B] := A. *)
Theorem answer_gate len e id now msg to payload c c1 st :
  rate_check now c = RatePassed c1 →
  signal_envelope msg to payload →
  sized_kind len payload "answer" →
  to ∈ peers st →
  ∃ st',
    on_message len e id now (Some msg) c st =
      (cancel_idle c1, st',
       if conflict id to st then [] else [Send to (Signal (Some (JStr id)) payload)])
    ∧ (if conflict id to st then st' = st
       else partner st' = <[to := Some id]> (<[id := Some to]> (partner st))
            ∧ partner st' !! to = Some (Some id)
            ∧ (id ≠ to → partner st' !! id = Some (Some to))).
Proof.
  intros Hr He Hk Hin.
  rewrite (on_message_local _ _ _ _ _ to payload _ c1) by done.
  rewrite relay_local_answer by done.
  destruct (conflict id to st); eexists; (split; [reflexivity|]); [done|].
  simpl. split; [done|]. split.
  - by rewrite lookup_insert_eq.
  - intros Hne. rewrite lookup_insert_ne by done. by rewrite lookup_insert_eq.
Qed.

Lemma answer_gate_witness :
  ∃ st',
    on_message quoted_length default_env "A" 0 (Some (envelope "B" (of_kind "answer")))
      fresh_conn two_free =
      (cancel_idle fresh_conn_1, st',
       if conflict "A" "B" two_free then []
       else [Send "B" (Signal (Some (JStr "A")) (of_kind "answer"))])
    ∧ (if conflict "A" "B" two_free then st' = two_free
       else partner st' = <["B" := Some "A"]> (<["A" := Some "B"]> (partner two_free))
            ∧ partner st' !! "B" = Some (Some "A")
            ∧ ("A" ≠ "B" → partner st' !! "A" = Some (Some "B"))).
Proof.
  apply (answer_gate quoted_length default_env "A" 0
           (envelope "B" (of_kind "answer")) "B" (of_kind "answer")
           fresh_conn fresh_conn_1 two_free).
  - reflexivity.
  - repeat split.
  - repeat split.
  - unfold two_free; simpl; set_solver.
Defined.

(** * Pairing conflicts (claim C5) *)

(** C5, as stated, fails for candidates: B has dialed A, then A has dialed C,
    so A is partnered with a peer other than B. A candidate from A to B is
    nevertheless forwarded to B, because Pairing[B] = A opens the gate. *)
Lemma candidate_in_conflict_is_forwarded :
  let r := run quoted_length default_env
     [EvConnect "A" 0; EvConnect "B" 0; EvConnect "C" 0;
      EvMessage "B" 1 (Some (envelope "A" (of_kind "offer")));
      EvMessage "A" 2 (Some (envelope "C" (of_kind "offer")))] initial in
  partner (rstate r.1) !! "A" = Some (Some "C")
  ∧ partner (rstate r.1) !! "B" = Some (Some "A")
  ∧ (step quoted_length default_env
       (EvMessage "A" 3 (Some (envelope "B" (of_kind "candidate")))) r.1).2
    = [Send "B" (Signal (Some (JStr "A")) (of_kind "candidate"))].
Proof. vm_compute. repeat split. Qed.

(** C5 (amended): for a frame from A to a connected B that passes the rate
    check, the envelope validation and the size guards:
    - an offer while A has a partner other than B or B has a partner other
      than A is answered to A with exactly [{from: B, type: 'signal',
      payload: {type: 'busy'}}], nothing is written to B and the registries
      are unchanged;
    - an answer in the same situation is dropped with no write and the
      registries unchanged;
    - a candidate never changes the pairing map; it is dropped with no write
      exactly when Pairing[A] is not B, Pairing[B] is not A and at least one
      of the two is not null, and is forwarded to B otherwise (so also when A
      is partnered elsewhere but Pairing[B] = A). *)
Theorem pairing_conflict_policy len e id now msg to payload c c1 st k :
  rate_check now c = RatePassed c1 →
  signal_envelope msg to payload →
  sized_kind len payload k →
  to ∈ peers st →
  (k = "offer" → conflict id to st = true →
     on_message len e id now (Some msg) c st =
       (cancel_idle c1, st, [Send id (Signal (Some (JStr to)) busy_payload)]))
  ∧ (k = "answer" → conflict id to st = true →
     on_message len e id now (Some msg) c st = (cancel_idle c1, st, []))
  ∧ (k = "candidate" →
     ∃ st', on_message len e id now (Some msg) c st =
              (cancel_idle c1, st',
               if candidate_gate id to st
               then [Send to (Signal (Some (JStr id)) payload)] else [])
            ∧ partner st' = partner st).
Proof.
  intros Hr He Hk Hin.
  rewrite (on_message_local _ _ _ _ _ to payload _ c1) by done.
  repeat split; intros ->.
  - intros Hc. rewrite relay_local_offer by done. by rewrite Hc.
  - intros Hc. rewrite relay_local_answer by done. by rewrite Hc.
  - rewrite relay_local_candidate by done.
    destruct (candidate_gate id to st); eexists; split; done.
Qed.

Lemma pairing_conflict_policy_witness :
  on_message quoted_length default_env "C" 0 (Some (envelope "A" (of_kind "offer")))
    fresh_conn three_paired =
    (cancel_idle fresh_conn_1, three_paired,
     [Send "C" (Signal (Some (JStr "A")) busy_payload)]).
Proof.
  refine (proj1 (pairing_conflict_policy quoted_length default_env "C" 0
           (envelope "A" (of_kind "offer")) "A" (of_kind "offer")
           fresh_conn fresh_conn_1 three_paired "offer" _ _ _ _) _ _).
  - reflexivity.
  - repeat split.
  - repeat split.
  - unfold three_paired; simpl; set_solver.
  - reflexivity.
  - vm_compute. reflexivity.
Defined.

(** * Self-freedom of the pairing map (claim C1) *)

Lemma self_free_insert_some m a b :
  self_free m → a ≠ b → self_free (<[a := Some b]> m).
Proof.
  intros Hm Hab x. destruct (decide (a = x)) as [->|Hne].
  - rewrite lookup_insert_eq. congruence.
  - rewrite lookup_insert_ne by done. apply Hm.
Qed.

Lemma self_free_insert_none m a :
  self_free m → self_free (<[a := None]> m).
Proof.
  intros Hm x. destruct (decide (a = x)) as [->|Hne].
  - by rewrite lookup_insert_eq.
  - rewrite lookup_insert_ne by done. apply Hm.
Qed.

Lemma self_free_delete m a :
  self_free m → self_free (delete a m).
Proof.
  intros Hm x. destruct (decide (a = x)) as [->|Hne].
  - by rewrite lookup_delete_eq.
  - rewrite lookup_delete_ne by done. apply Hm.
Qed.

Lemma self_free_empty : self_free ∅.
Proof. intros x. by rewrite lookup_empty. Qed.

Create HintDb selffree.
#[local] Hint Resolve self_free_insert_some self_free_insert_none self_free_delete
  self_free_empty : selffree.

Lemma relay_local_self_free len id to payload c st :
  self_free (partner st) →
  String.eqb to id
    && (is_str (prop "type" (Some payload)) "offer"
        || is_str (prop "type" (Some payload)) "answer") = false →
  self_free (partner (relay_local len id to payload c st).1.2).
Proof.
  intros Hm Hself. unfold relay_local.
  set (kind := prop "type" (Some payload)) in *.
  destruct (negb (existsb _ _)); [done|].
  destruct (oversized _ _ "sdp" _); [done|].
  destruct (oversized _ _ "candidate" _); [done|].
  assert (Hne : is_str kind "offer" || is_str kind "answer" = true → id ≠ to).
  { intros Hk ->. rewrite Hk, String.eqb_refl in Hself. done. }
  destruct (is_str kind "offer") eqn:Ho; destruct (is_str kind "answer") eqn:Ha;
    simpl in Hne; try (pose proof (Hne eq_refl) as Hne1; assert (to ≠ id) by congruence);
    destruct (is_str kind "bye" && is_peer _ to);
    destruct (is_str kind "bye" && is_peer _ id);
    destruct (is_str kind "candidate" && _);
    destruct (with_other _ to || with_other _ id);
    simpl; auto 8 with selffree.
Qed.

Lemma handle_frame_self_free len e id data c st :
  self_free (partner st) →
  self_addressed (EvMessage id 0 data) = false →
  self_free (partner (handle_frame len e id data c st).1.2).
Proof.
  intros Hm Hself. unfold handle_frame.
  destruct data as [msg|]; [|done].
  unfold self_addressed in Hself. rewrite !prop_or_empty.
  destruct (prop "to" (Some msg)) as [[| | |to| |]|] eqn:Hto; try done.
  destruct (prop "payload" (Some msg)) as [payload|] eqn:Hp; [|done].
  destruct (negb _ || negb _); [done|].
  destruct (is_str _ "list"); [done|].
  destruct (negb (bool_decide _)); [done|].
  apply relay_local_self_free; done.
Qed.

Lemma step_self_free len e ev s :
  self_free (partner (rstate s)) →
  self_addressed ev = false →
  self_free (partner (rstate (step len e ev s).1)).
Proof.
  intros Hm Hself. destruct ev as [id now|id now data|id|id|id| |ch m]; simpl.
  - auto with selffree.
  - destruct (conns s !! id) as [c|]; [|done].
    destruct (on_message _ _ _ _ _ _ _) as [[c' st'] out] eqn:Hom. simpl.
    unfold on_message in Hom. destruct (rate_check now c) as [c1|c1].
    + by inversion Hom.
    + pose proof (handle_frame_self_free len e id data c1 (rstate s) Hm Hself) as H.
      by rewrite Hom in H.
  - destruct (conns s !! id) as [c|]; [|done]. simpl.
    destruct (partner_of id (rstate s)) as [p|]; [|auto with selffree].
    destruct (bool_decide _); auto with selffree.
  - destruct (conns s !! id) as [c|]; [|done].
    by destruct (on_idle_timeout id c).
  - by destruct (conns s !! id).
  - done.
  - destruct (on_bus_message e ch m (rstate s)) as [st' out] eqn:Hb. simpl.
    unfold on_bus_message in Hb.
    repeat (case_match; simplify_eq; try done).
Qed.

(** C1, as stated, fails: a peer that sends an offer addressed to its own code
    becomes its own partner. *)
Lemma self_offer_pairs_peer_with_itself :
  partner (rstate (run quoted_length default_env
     [EvConnect "A" 0;
      EvMessage "A" 1 (Some (envelope "A" (of_kind "offer")))] initial).1) !! "A"
  = Some (Some "A").
Proof. vm_compute. reflexivity. Qed.

(** C1 (amended): the handlers have no check that the destination differs
    from the sender. In every state reached from the initial one by a sequence
    of events (connections, client frames of any content, closes, timers,
    heartbeats, bus deliveries) in which no offer or answer is addressed by a
    connection to its own code, Pairing[X] is never X. *)
Theorem self_freedom len e evs :
  Forall (λ ev, self_addressed ev = false) evs →
  ∀ x, partner (rstate (run len e evs initial).1) !! x ≠ Some (Some x).
Proof.
  intros Hevs. change (self_free (partner (rstate (run len e evs initial).1))).
  assert (Hinit : self_free (partner (rstate initial))) by apply self_free_empty.
  revert Hinit. generalize initial as s.
  induction Hevs as [|ev evs Hev _ IH]; intros s Hs; [done|].
  simpl. pose proof (step_self_free len e ev s Hs Hev) as H1.
  destruct (step len e ev s) as [s1 out1]. specialize (IH s1 H1).
  by destruct (run len e evs s1).
Qed.

Lemma self_freedom_witness :
  let final := rstate (run quoted_length default_env
     [EvConnect "A" 0; EvConnect "B" 0;
      EvMessage "A" 1 (Some (envelope "B" (of_kind "offer")));
      EvMessage "B" 2 (Some (envelope "A" (of_kind "answer")))] initial).1 in
  partner final !! "A" = Some (Some "B")
  ∧ partner final !! "B" = Some (Some "A")
  ∧ ∀ x, partner final !! x ≠ Some (Some x).
Proof.
  split; [|split].
  - vm_compute. reflexivity.
  - vm_compute. reflexivity.
  - apply (self_freedom quoted_length default_env).
    repeat constructor.
Defined.

(** * Cross-instance publication (claim C2) *)

(** C2, as stated, fails: with the bus configured, a frame for a destination
    that is not connected here is published although its [payload.type] is not
    a recognized kind; the instance where the destination R is connected then
    writes it to R. *)
Lemma unvalidated_frame_is_published_and_delivered :
  let m := JObj [("to", JStr "R"); ("from", JStr "A");
                 ("payload", of_kind "garbage"); ("type", JStr "signal")] in
  (run quoted_length redis_env
     [EvConnect "A" 0;
      EvMessage "A" 1 (Some (envelope "R" (of_kind "garbage")))] initial).2
  = [Send "A" (Welcome "A"); HSet "A"; Publish "p2pws:signals" m]
  ∧ (run quoted_length redis_env
       [EvConnect "R" 0; EvBus "p2pws:signals" (Some m)] initial).2
    = [Send "R" (Welcome "R"); HSet "R";
       Send "R" (Signal (Some (JStr "A")) (of_kind "garbage"))].
Proof. vm_compute. split; reflexivity. Qed.

(** C2 (amended): with the bus configured, every frame that passes the rate
    check and the envelope validation ([to] a string, [payload] a truthy
    object, [type] not ['list']) and whose destination is not connected here is
    published as [{to, from, payload, type: 'signal'}] before the kind
    whitelist, the size guards and the pairing state machine are reached: the
    publication does not depend on [payload.type], on the payload size or on
    the pairing state, and the registries and the counters are left unchanged.
    An instance where [to] is connected delivers the published message to it
    as [{from, type: 'signal', payload}] with no further gating. *)
Theorem remote_signal_is_published_ungated len e id now msg to payload c c1 st :
  rate_check now c = RatePassed c1 →
  signal_envelope msg to payload →
  to ∉ peers st →
  useRedis e = true →
  let m := JObj [("to", JStr to); ("from", JStr id); ("payload", payload);
                 ("type", JStr "signal")] in
  (on_message len e id now (Some msg) c st).2 = [Publish (redisSignalsChannel e) m]
  ∧ (on_message len e id now (Some msg) c st).1.2 = st
  ∧ ∀ st2, to ∈ peers st2 →
      (on_bus_message e (redisSignalsChannel e) (Some m) st2).2
      = [Send to (Signal (Some (JStr id)) payload)].
Proof.
  intros Hr He Hnin Hredis m.
  assert (on_message len e id now (Some msg) c st
          = (c1, st, [Publish (redisSignalsChannel e) m])) as ->.
  { rewrite (on_message_passed _ _ _ _ _ _ c1) by done.
    rewrite (handle_frame_signal _ _ _ _ to payload) by done.
    rewrite bool_decide_eq_false_2 by done. by rewrite Hredis. }
  split; [done|]. split; [done|].
  - intros st2 Hin. destruct He as (_ & _ & Ht & _ & _).
    unfold on_bus_message. rewrite String.eqb_refl.
    change (truthy (Some m)) with true. cbn -[truthy].
    rewrite Ht. cbn -[truthy]. by rewrite bool_decide_eq_true_2.
Qed.

Lemma remote_signal_is_published_ungated_witness :
  let m := JObj [("to", JStr "R"); ("from", JStr "A");
                 ("payload", of_kind "garbage"); ("type", JStr "signal")] in
  (on_message quoted_length redis_env "A" 0 (Some (envelope "R" (of_kind "garbage")))
     fresh_conn two_free).2
  = [Publish (redisSignalsChannel redis_env) m]
  ∧ (on_message quoted_length redis_env "A" 0 (Some (envelope "R" (of_kind "garbage")))
       fresh_conn two_free).1.2
    = two_free
  ∧ ∀ st2, "R" ∈ peers st2 →
      (on_bus_message redis_env (redisSignalsChannel redis_env) (Some m) st2).2
      = [Send "R" (Signal (Some (JStr "A")) (of_kind "garbage"))].
Proof.
  apply (remote_signal_is_published_ungated quoted_length redis_env "A" 0
           (envelope "R" (of_kind "garbage")) "R" (of_kind "garbage")
           fresh_conn fresh_conn_1 two_free).
  - reflexivity.
  - repeat split.
  - apply (bool_decide_unpack ("R" ∉ peers two_free)). vm_compute. exact I.
  - reflexivity.
Defined.

(** * Framing and validation failures (claim C7) *)

Lemma handle_frame_invalid len e id data c st :
  invalid_frame data = true →
  handle_frame len e id data c st = (c, inc_errors st, []).
Proof.
  destruct data as [msg|]; [|done]. unfold invalid_frame, envelope_ok, handle_frame.
  rewrite !prop_or_empty.
  destruct (prop "to" (Some msg)) as [[| | |to| |]|]; try done.
  destruct (prop "payload" (Some msg)) as [payload|]; [|done].
  rewrite negb_true_iff. intros H.
  destruct (truthy (Some payload)); [|done]. simpl in *. by rewrite H.
Qed.

Lemma relay_local_rejected len id to payload c st :
  rejected_payload len payload = true →
  relay_local len id to payload c st = (c, st, []).
Proof.
  unfold rejected_payload, relay_local. intros H.
  destruct (negb (existsb _ _)); [done|].
  destruct (oversized _ _ "sdp" _); [done|].
  destruct (oversized _ _ "candidate" _); done.
Qed.

(** C7, as stated, fails: a frame with an unrecognized [payload.type] sent to
    a connected peer is dropped, but [ws_errors_total] stays at 0. *)
Lemma unknown_kind_is_not_counted :
  let r := run quoted_length default_env
     [EvConnect "A" 0; EvConnect "B" 0;
      EvMessage "A" 1 (Some (envelope "B" (of_kind "garbage")))] initial in
  ws_errors (rstate r.1) = 0
  ∧ r.2 = [Send "A" (Welcome "A"); Send "B" (Welcome "B")].
Proof. vm_compute. split; reflexivity. Qed.

(** C7 (amended): for a frame that passes the rate check,
    - malformed JSON, or an envelope whose [to] is not a string or whose
      [payload] is missing or not an object, increments [ws_errors_total] by
      one, writes nothing and does not close the connection;
    - an envelope for a connected destination whose [payload.type] is not a
      recognized kind, or whose [sdp] or [candidate] is oversized, is dropped
      as well: nothing is written, the connection is not closed and the
      registries are unchanged, but [ws_errors_total] is not incremented. *)
Theorem validation_failures len e id now data c c1 st :
  rate_check now c = RatePassed c1 →
  (invalid_frame data = true →
     on_message len e id now data c st = (c1, inc_errors st, [])
     ∧ ws_errors (inc_errors st) = ws_errors st + 1)
  ∧ (∀ msg to payload,
       data = Some msg → signal_envelope msg to payload → to ∈ peers st →
       rejected_payload len payload = true →
       on_message len e id now data c st = (c1, st, [])).
Proof.
  intros Hr. split.
  - intros Hinv. split; [|done].
    rewrite (on_message_passed _ _ _ _ _ _ c1) by done.
    by apply handle_frame_invalid.
  - intros msg to payload -> He Hin Hrej.
    rewrite (on_message_local _ _ _ _ _ to payload _ c1) by done.
    by apply relay_local_rejected.
Qed.

Lemma validation_failures_witness :
  on_message quoted_length default_env "A" 0 None fresh_conn two_free
  = (fresh_conn_1, inc_errors two_free, [])
  ∧ on_message quoted_length default_env "A" 0 (Some (envelope "B" big_offer))
      fresh_conn two_free
    = (fresh_conn_1, two_free, []).
Proof.
  pose proof (validation_failures quoted_length default_env "A" 0 None
                fresh_conn fresh_conn_1 two_free eq_refl) as [H1 _].
  pose proof (validation_failures quoted_length default_env "A" 0
                (Some (envelope "B" big_offer))
                fresh_conn fresh_conn_1 two_free eq_refl) as [_ H2].
  split.
  - exact (proj1 (H1 eq_refl)).
  - apply (H2 (envelope "B" big_offer) "B" big_offer eq_refl).
    + repeat split.
    + unfold two_free; simpl; set_solver.
    + vm_compute. reflexivity.
Defined.

(** * The idle timer (claim C8) *)

Lemma rate_check_timer now c :
  match rate_check now c with
  | RateClosed c' | RatePassed c' => signalTimeout c' = signalTimeout c
  end.
Proof.
  unfold rate_check. cbv zeta.
  destruct (Qlt_bool 0 (rate c)); [|done].
  by destruct (Qlt_bool (tokens (refill now c)) 1).
Qed.

(** C8 at work: with the bus configured, A sends an offer to a peer R hosted
    on another instance one second after connecting. The offer is published,
    but the handler returns at the local miss, before the timer is cleared;
    when the 60 s timer fires, A is closed with 1000 "idle". The same offer
    to a peer B connected here clears the timer, and nothing is closed. *)
Lemma remote_offer_does_not_cancel_idle_timer :
  (run quoted_length redis_env
     [EvConnect "A" 0;
      EvMessage "A" 1000 (Some (envelope "R" (of_kind "offer")));
      EvIdle "A"] initial).2
  = [Send "A" (Welcome "A"); HSet "A";
     Publish "p2pws:signals"
       (JObj [("to", JStr "R"); ("from", JStr "A");
              ("payload", of_kind "offer"); ("type", JStr "signal")]);
     CloseWs "A" 1000 "idle"]
  ∧ (run quoted_length redis_env
       [EvConnect "A" 0; EvConnect "B" 0;
        EvMessage "A" 1000 (Some (envelope "B" (of_kind "offer")));
        EvIdle "A"] initial).2
    = [Send "A" (Welcome "A"); HSet "A"; Send "B" (Welcome "B"); HSet "B";
       Send "B" (Signal (Some (JStr "A")) (of_kind "offer"))].
Proof. vm_compute. split; reflexivity. Qed.

(** The same in general: a signaling frame for a destination that is not
    connected here leaves the idle timer as it was, so a pending timer still
    closes the connection when it fires. *)
Lemma local_miss_keeps_idle_timer len e id now msg to payload c st :
  signal_envelope msg to payload →
  to ∉ peers st →
  signalTimeout c = Pending →
  let c' := (on_message len e id now (Some msg) c st).1.1 in
  signalTimeout c' = Pending
  ∧ (on_idle_timeout id c').2 = [CloseWs id 1000 "idle"].
Proof.
  intros He Hnin Hp. pose proof (rate_check_timer now c) as Ht.
  assert (signalTimeout (on_message len e id now (Some msg) c st).1.1 = Pending) as Hc.
  { unfold on_message. destruct (rate_check now c) as [c1|c1]; [simpl; congruence|].
    rewrite (handle_frame_signal _ _ _ _ to payload) by done.
    rewrite bool_decide_eq_false_2 by done. simpl. congruence. }
  simpl. split; [done|]. unfold on_idle_timeout. by rewrite Hc.
Qed.

(** * The token bucket (claims C6 and C10) *)

Lemma Qlt_bool_true a b : Qlt_bool a b = true ↔ (a < b)%Q.
Proof.
  unfold Qlt_bool. rewrite negb_true_iff. split.
  - intros H. apply Qnot_le_lt. intros Hle. apply Qle_bool_iff in Hle. congruence.
  - intros H. destruct (Qle_bool b a) eqn:E; [|done].
    apply Qle_bool_iff in E. exfalso. by apply (Qlt_not_le a b).
Qed.

Lemma Qlt_bool_false a b : Qlt_bool a b = false ↔ (b <= a)%Q.
Proof.
  unfold Qlt_bool. rewrite negb_false_iff. apply Qle_bool_iff.
Qed.

Lemma Math_min_le_l a b : (Math_min a b <= a)%Q.
Proof.
  unfold Math_min. destruct (Qle_bool a b) eqn:E; [lra|].
  assert (Qlt_bool b a = true) as H by (unfold Qlt_bool; by rewrite E).
  apply Qlt_bool_true in H. lra.
Qed.

Lemma Math_min_le_r a b : (Math_min a b <= b)%Q.
Proof.
  unfold Math_min. destruct (Qle_bool a b) eqn:E; [|lra].
  by apply Qle_bool_iff.
Qed.

Lemma Math_min_glb a b x : (x <= a)%Q → (x <= b)%Q → (x <= Math_min a b)%Q.
Proof. unfold Math_min. by destruct (Qle_bool a b). Qed.

Lemma avail_le_burst now c : (avail now c <= burst c)%Q.
Proof. apply Math_min_le_l. Qed.

(** Without elapsed time the refill adds nothing. *)
Lemma avail_no_elapsed now c :
  now ≤ last c → (avail now c <= tokens c)%Q.
Proof.
  intros H. unfold avail, refill. simpl.
  eapply Qle_trans; [apply Math_min_le_r|].
  replace (Z.max 0 (now - last c)) with 0 by lia.
  change (inject_Z 0) with 0%Q.
  assert (0 / 1000 * rate c == 0)%Q as -> by (unfold Qdiv; ring). lra.
Qed.

Lemma avail_full now c :
  now ≤ last c → (tokens c <= burst c)%Q → (avail now c == tokens c)%Q.
Proof.
  intros H Hb. apply Qle_antisym; [by apply avail_no_elapsed|].
  unfold avail, refill. simpl. apply Math_min_glb; [done|].
  replace (Z.max 0 (now - last c)) with 0 by lia.
  change (inject_Z 0) with 0%Q.
  assert (0 / 1000 * rate c == 0)%Q as -> by (unfold Qdiv; ring). lra.
Qed.

Lemma rate_check_disabled now c :
  (rate c <= 0)%Q → rate_check now c = RatePassed c.
Proof.
  intros H. unfold rate_check. apply Qlt_bool_false in H. by rewrite H.
Qed.

Lemma rate_check_closed now c :
  (0 < rate c)%Q → (avail now c < 1)%Q →
  rate_check now c = RateClosed (refill now c).
Proof.
  intros Hr Ha. unfold rate_check. apply Qlt_bool_true in Hr, Ha.
  unfold avail in Ha. by rewrite Hr, Ha.
Qed.

Lemma rate_check_passed now c :
  (0 < rate c)%Q → (1 <= avail now c)%Q →
  rate_check now c = RatePassed (set_tokens (avail now c - 1)%Q (refill now c)).
Proof.
  intros Hr Ha. unfold rate_check. apply Qlt_bool_true in Hr. apply Qlt_bool_false in Ha.
  unfold avail in *. by rewrite Hr, Ha.
Qed.

(** The frame handlers touch the timer only: the bucket is the one the rate
    check left, and they never close the connection. *)
Lemma relay_local_conn len id to payload c st :
  ∃ tm, (relay_local len id to payload c st).1.1 = set_timer tm c.
Proof.
  assert (c = set_timer (signalTimeout c) c) as Hc by (by destruct c).
  assert (∀ c0, c0 = c ∨ c0 = cancel_idle c → ∃ tm, c0 = set_timer tm c) as Hx.
  { intros c0 [->| ->]; [eauto|]. unfold cancel_idle. destruct (signalTimeout c); eauto. }
  unfold relay_local. apply Hx.
  repeat (case_match; simpl; auto).
Qed.

Lemma handle_frame_conn len e id data c st :
  ∃ tm, (handle_frame len e id data c st).1.1 = set_timer tm c.
Proof.
  assert (c = set_timer (signalTimeout c) c) as Hc by (by destruct c).
  unfold handle_frame.
  repeat (case_match; simpl; eauto using relay_local_conn).
Qed.

Lemma relay_local_no_close len id to payload c st :
  existsb is_close (relay_local len id to payload c st).2 = false.
Proof. unfold relay_local. by repeat (case_match; simpl). Qed.

Lemma handle_frame_no_close len e id data c st :
  existsb is_close (handle_frame len e id data c st).2 = false.
Proof.
  unfold handle_frame.
  repeat (case_match; simpl; auto using relay_local_no_close).
Qed.

(** One frame on a connection whose limiter is on: either the bucket is
    empty and the connection is closed, or one token is taken and the frame is
    handled. *)
Lemma on_message_step len e id now d c st :
  (0 < rate c)%Q →
  ((avail now c < 1)%Q
   ∧ on_message len e id now d c st
     = (refill now c, inc_errors st, [CloseWs id 1008 "rate"]))
  ∨ ((1 <= avail now c)%Q
     ∧ ∃ tm st' out,
         on_message len e id now d c st
         = (set_timer tm (set_tokens (avail now c - 1)%Q (refill now c)), st', out)
         ∧ existsb is_close out = false
         ∧ (invalid_frame d = true →
            tm = signalTimeout c ∧ st' = inc_errors st ∧ out = [])).
Proof.
  intros Hr. destruct (Qlt_le_dec (avail now c) 1) as [Hlt|Hle]; [left|right].
  - split; [done|]. unfold on_message. by rewrite rate_check_closed.
  - split; [done|]. unfold on_message. rewrite rate_check_passed by done.
    set (c1 := set_tokens _ _).
    destruct (handle_frame_conn len e id d c1 st) as [tm Htm].
    pose proof (handle_frame_no_close len e id d c1 st) as Hnc.
    pose proof (handle_frame_invalid len e id d c1 st) as Hinv.
    destruct (handle_frame len e id d c1 st) as [[c' st'] out]. simpl in *.
    exists tm, st', out. subst c'. split; [done|]. split; [done|].
    intros Hd. specialize (Hinv Hd). by inversion Hinv as [[Hc Hs Ho]].
Qed.

Lemma feed_disabled_never_closes len e id frames c st :
  (rate c <= 0)%Q →
  existsb is_close (feed len e id frames c st).2 = false.
Proof.
  revert c st. induction frames as [|[now d] rest IH]; intros c st Hr; [done|].
  simpl. unfold on_message. rewrite rate_check_disabled by done.
  destruct (handle_frame_conn len e id d c st) as [tm Htm].
  pose proof (handle_frame_no_close len e id d c st) as Hnc.
  destruct (handle_frame len e id d c st) as [[c1 st1] out1]. simpl in *.
  assert (rate c1 <= 0)%Q as Hr1 by (by subst c1).
  specialize (IH c1 st1 Hr1).
  destruct (feed len e id rest c1 st1) as [[c2 st2] out2]. simpl in *.
  rewrite existsb_app, Hnc, IH. done.
Qed.


(** C6, as stated, fails: with rate 0 and burst 2 the limiter is switched
    off. A sends three frames to B at the very instant it connected; all three
    are forwarded and nothing closes the connection. *)
Lemma rate_zero_disables_limiter :
  (run quoted_length (Env 0 2 false "p2pws:")
     [EvConnect "A" 0; EvConnect "B" 0;
      EvMessage "A" 0 (Some (envelope "B" (of_kind "candidate")));
      EvMessage "A" 0 (Some (envelope "B" (of_kind "candidate")));
      EvMessage "A" 0 (Some (envelope "B" (of_kind "candidate")))] initial).2
  = [Send "A" (Welcome "A"); Send "B" (Welcome "B");
     Send "B" (Signal (Some (JStr "A")) (of_kind "candidate"));
     Send "B" (Signal (Some (JStr "A")) (of_kind "candidate"));
     Send "B" (Signal (Some (JStr "A")) (of_kind "candidate"))].
Proof. vm_compute. reflexivity. Qed.

(** C6 (amended): the bucket is consulted only when the configured rate is
    positive. With rate 0 (or below) no sequence of frames closes the
    connection, whatever the burst. With a positive rate, burst 2 and a full
    bucket, three frames arriving with no time elapsed behave as the scenario
    says: the first two are handled without a close, and the third closes the
    connection with 1008 "rate" (and counts an error). *)
Theorem burst_two_scenario len e id t d1 d2 d3 c st :
  ((rate c <= 0)%Q →
     ∀ frames, existsb is_close (feed len e id frames c st).2 = false)
  ∧ ((0 < rate c)%Q → (burst c == 2)%Q → (tokens c == 2)%Q → t ≤ last c →
     ∃ c2 st2 out12 c3,
       feed len e id [(t, d1); (t, d2)] c st = (c2, st2, out12)
       ∧ existsb is_close out12 = false
       ∧ on_message len e id t d3 c2 st2
         = (c3, inc_errors st2, [CloseWs id 1008 "rate"])).
Proof.
  split; [intros Hr frames; by apply feed_disabled_never_closes|].
  intros Hr Hb Ht Hl. simpl.
  assert (avail t c == 2)%Q as Ha by (rewrite avail_full; [done|done|lra]).
  destruct (on_message_step len e id t d1 c st Hr)
    as [[Hlt _]|[_ (tm1 & st1 & out1 & -> & Hn1 & _)]]; [lra|].
  set (c1 := set_timer tm1 _).
  assert (avail t c1 == 1)%Q as Ha1.
  { rewrite avail_full; simpl; [lra|lia|lra]. }
  destruct (on_message_step len e id t d2 c1 st1 Hr)
    as [[Hlt _]|[_ (tm2 & st2 & out2 & -> & Hn2 & _)]]; [lra|].
  set (c2 := set_timer tm2 _).
  assert (avail t c2 == 0)%Q as Ha2.
  { rewrite avail_full; simpl; [lra|lia|lra]. }
  destruct (on_message_step len e id t d3 c2 st2 Hr)
    as [[_ H3]|[Hle _]]; [|lra].
  exists c2, st2, (out1 ++ out2 ++ [])%list, (refill t c2).
  split; [done|]. split; [|exact H3].
  rewrite !existsb_app, Hn1, Hn2. done.
Qed.

Lemma burst_two_scenario_witness :
  (∀ frames,
     existsb is_close
       (feed quoted_length default_env "A" frames (Conn true 0 2 2 0 Pending) two_free).2
     = false)
  ∧ ∃ c2 st2 out12 c3,
      feed quoted_length default_env "A" [(0, None); (0, None)]
        (Conn true 20 2 2 0 Pending) two_free = (c2, st2, out12)
      ∧ existsb is_close out12 = false
      ∧ on_message quoted_length default_env "A" 0 None c2 st2
        = (c3, inc_errors st2, [CloseWs "A" 1008 "rate"]).
Proof.
  split.
  - apply (proj1 (burst_two_scenario quoted_length default_env "A" 0 None None None
                    (Conn true 0 2 2 0 Pending) two_free)).
    simpl. lra.
  - apply (proj2 (burst_two_scenario quoted_length default_env "A" 0 None None None
                    (Conn true 20 2 2 0 Pending) two_free)).
    + reflexivity.
    + reflexivity.
    + reflexivity.
    + simpl. lia.
Defined.




(** * Heartbeat (claim C9) *)

(** C9, as stated, fails: a client connects at time 0 and never answers. The
    sweep at 30 s pings it, and the sweep at 60 s terminates it: one ping was
    written, one acknowledgement was missed. *)
Lemma one_missed_ack_terminates :
  hb_run "A" [HbSweep; HbSweep] fresh_conn
  = (set_alive false fresh_conn, [Ping "A"; Terminate "A"])
  ∧ first_termination "A" [(30000, HbSweep); (60000, HbSweep)] fresh_conn 0 0
    = Some (60000, 0, 1%nat).
Proof. split; reflexivity. Qed.

Lemma first_termination_inv id tr :
  ∀ c ack pings next,
    periodic next tr →
    (if isAlive c
     then pings = 0%nat ∧ next - 30000 ≤ ack ≤ next
     else pings = 1%nat ∧ next - 60000 ≤ ack ≤ next - 30000) →
    ∀ T a n, first_termination id tr c ack pings = Some (T, a, n) →
             n = 1%nat ∧ 30000 ≤ T - a ≤ 60000.
Proof.
  induction tr as [|[t [|]] rest IH]; intros c ack pings next Hp Hinv T a n Hft.
  - done.
  - destruct Hp as [Ht Hp]. simpl in Hft.
    apply (IH _ _ _ next Hp) in Hft; [done|]. simpl. split; [done|lia].
  - destruct Hp as [-> Hp]. simpl in Hft. unfold sweep_client in Hft.
    destruct (isAlive c) eqn:Ha; simpl in Hft.
    + apply (IH _ _ _ (next + 30000) Hp) in Hft; [done|]. simpl.
      destruct Hinv as [-> ?]. split; [done|lia].
    + inversion Hft; subst. destruct Hinv as [-> ?]. split; [done|lia].
Qed.

Lemma first_termination_acked id tr :
  missed_ack tr = false →
  ∀ c ack pings,
    (isAlive c = false → ∀ t rest, tr ≠ (t, HbSweep) :: rest) →
    first_termination id tr c ack pings = None.
Proof.
  induction tr as [|[t [|]] rest IH]; intros Hm c ack pings Hdead; [done| |].
  - simpl. apply IH; [by destruct rest as [|[? []] ?]|]. done.
  - simpl. unfold sweep_client. destruct (isAlive c) eqn:Ha; simpl.
    + destruct rest as [|[t' [|]] rest']; [done| |done].
      apply IH; [done|]. intros _ t0 rest0 Heq. done.
    + by destruct (Hdead eq_refl t rest).
Qed.

Lemma first_termination_missed id tr :
  missed_ack tr = true →
  ∀ c ack pings, is_Some (first_termination id tr c ack pings).
Proof.
  induction tr as [|[t [|]] rest IH]; intros Hm c ack pings; [done| |].
  - simpl. apply IH. by destruct rest as [|[? []] ?].
  - simpl. unfold sweep_client. destruct (isAlive c) eqn:Ha; simpl; [|done].
    destruct rest as [|[t' [|]] rest']; [done| |done].
    apply IH. done.
Qed.

(** C9 (amended): the sweeper terminates a client as soon as one ping has
    gone unacknowledged until the next sweep. With sweeps exactly 30 s apart,
    a client that was marked alive when the trace starts is terminated, if at
    all, when exactly one ping has been written to it since it was last marked
    alive, and no earlier than 30 s and no later than 60 s after that moment;
    it is terminated if and only if some ping is still unacknowledged at the
    following sweep, so a client that acknowledges every ping before the
    following sweep is never terminated by the heartbeat. *)
Theorem heartbeat_termination id tr c ack next :
  isAlive c = true →
  next - 30000 ≤ ack ≤ next →
  periodic next tr →
  (∀ T a n, first_termination id tr c ack 0 = Some (T, a, n) →
            n = 1%nat ∧ 30000 ≤ T - a ≤ 60000)
  ∧ (missed_ack tr = false ↔ first_termination id tr c ack 0 = None).
Proof.
  intros Ha Hack Hp. split.
  - apply (first_termination_inv id tr c ack 0%nat next Hp). by rewrite Ha.
  - split.
    + intros Hm. apply first_termination_acked; [done|]. congruence.
    + intros Hn. destruct (missed_ack tr) eqn:Hm; [|done].
      destruct (first_termination_missed id tr Hm c ack 0%nat) as [x Hx]. congruence.
Qed.

Lemma heartbeat_termination_witness :
  (∀ T a n,
     first_termination "A"
       [(30000, HbSweep); (41000, HbPong); (60000, HbSweep); (90000, HbSweep)]
       fresh_conn 0 0 = Some (T, a, n) →
     n = 1%nat ∧ 30000 ≤ T - a ≤ 60000)
  ∧ (missed_ack [(30000, HbSweep); (41000, HbPong); (60000, HbSweep); (90000, HbSweep)]
       = false ↔
     first_termination "A"
       [(30000, HbSweep); (41000, HbPong); (60000, HbSweep); (90000, HbSweep)]
       fresh_conn 0 0 = None).
Proof.
  apply (heartbeat_termination "A"
           [(30000, HbSweep); (41000, HbPong); (60000, HbSweep); (90000, HbSweep)]
           fresh_conn 0 30000).
  - reflexivity.
  - lia.
  - simpl. lia.
Defined.

(** * Further properties of the handlers *)

Local Set Warnings "-clear-no-such-hyp".

(** ** What a client frame can cause *)

Lemma relay_local_effects len id to payload c st :
  ∀ x, x ∈ (relay_local len id to payload c st).2 →
       x = Send id (Signal (Some (JStr to)) busy_payload)
       ∨ x = Send to (Signal (Some (JStr id)) payload).
Proof.
  intros x. unfold relay_local.
  repeat (case_match; simpl); rewrite ?elem_of_nil, ?list_elem_of_singleton; tauto.
Qed.

Lemma relay_local_length len id to payload c st :
  (List.length (relay_local len id to payload c st).2 ≤ 1)%nat.
Proof. unfold relay_local. repeat (case_match; simpl); lia. Qed.

Local Ltac no_effect :=
  split; [simpl; lia | intros ? Hx; apply elem_of_nil in Hx; destruct Hx].

Lemma on_message_outputs len e id now data c st :
  (List.length (on_message len e id now data c st).2 ≤ 1)%nat
  ∧ ∀ x, x ∈ (on_message len e id now data c st).2 →
      x = CloseWs id 1008 "rate"
      ∨ x = Send id Peers
      ∨ ∃ to payload,
          prop "to" data = Some (JStr to) ∧ prop "payload" data = Some payload
          ∧ ((to ∈ peers st
              ∧ (x = Send id (Signal (Some (JStr to)) busy_payload)
                 ∨ x = Send to (Signal (Some (JStr id)) payload)))
             ∨ ((to ∉ peers st) ∧ useRedis e = true
                ∧ x = Publish (redisSignalsChannel e)
                        (JObj [("to", JStr to); ("from", JStr id);
                               ("payload", payload); ("type", JStr "signal")]))).
Proof.
  unfold on_message. destruct (rate_check now c) as [c1|c1].
  { split; [simpl; lia|]. intros x Hx. apply list_elem_of_singleton in Hx. auto. }
  unfold handle_frame. destruct data as [msg|]; [|no_effect].
  rewrite !prop_or_empty.
  destruct (prop "to" (Some msg)) as [[| | |to| |]|] eqn:Hto;
    try no_effect.
  destruct (prop "payload" (Some msg)) as [payload|] eqn:Hp; [|no_effect].
  destruct (negb _ || negb _); [no_effect|].
  destruct (is_str _ "list").
  { split; [simpl; lia|]. intros x Hx. apply list_elem_of_singleton in Hx. auto. }
  destruct (bool_decide (to ∈ peers st)) eqn:Hin; simpl.
  - apply bool_decide_eq_true in Hin. split; [apply relay_local_length|].
    intros x Hx. apply relay_local_effects in Hx. right; right.
    exists to, payload. repeat split; try done. left. done.
  - apply bool_decide_eq_false in Hin. destruct (useRedis e) eqn:Hr.
    + split; [simpl; lia|]. intros x Hx. apply list_elem_of_singleton in Hx.
      right; right. exists to, payload. repeat split; try done. right. done.
    + no_effect.
Qed.

(** X1: whatever a connection sends, the handler performs at most one
    effect, and it is one of: the rate close of the sender, the empty peers
    list to the sender, the synthetic busy envelope to the sender naming the
    addressed peer, the payload relayed verbatim to the addressed peer when that
    peer is connected here, or the publication for a peer that is not. No other
    connection is written to and no other peer id is revealed. *)
Theorem on_message_effects len e id now data c st :
  (List.length (on_message len e id now data c st).2 ≤ 1)%nat
  ∧ ∀ x, x ∈ (on_message len e id now data c st).2 →
      x = CloseWs id 1008 "rate"
      ∨ x = Send id Peers
      ∨ ∃ to payload,
          prop "to" data = Some (JStr to) ∧ prop "payload" data = Some payload
          ∧ ((to ∈ peers st
              ∧ (x = Send id (Signal (Some (JStr to)) busy_payload)
                 ∨ x = Send to (Signal (Some (JStr id)) payload)))
             ∨ ((to ∉ peers st) ∧ useRedis e = true
                ∧ x = Publish (redisSignalsChannel e)
                        (JObj [("to", JStr to); ("from", JStr id);
                               ("payload", payload); ("type", JStr "signal")]))).
Proof. apply on_message_outputs. Qed.

(** ** Locality of pairing updates *)

Lemma relay_local_peers len id to payload c st :
  peers (relay_local len id to payload c st).1.2 = peers st.
Proof. unfold relay_local. by repeat (case_match; simpl). Qed.

Lemma relay_local_partner_other len id to payload c st x :
  x ≠ id → x ≠ to →
  partner (relay_local len id to payload c st).1.2 !! x = partner st !! x.
Proof.
  intros Hid Hto. unfold relay_local.
  repeat (case_match; simpl); rewrite ?lookup_insert_ne by done; done.
Qed.

Lemma on_message_registries len e id now data c st :
  peers (on_message len e id now data c st).1.2 = peers st
  ∧ ∀ x, x ≠ id → prop "to" data ≠ Some (JStr x) →
         partner (on_message len e id now data c st).1.2 !! x = partner st !! x.
Proof.
  unfold on_message. destruct (rate_check now c) as [c1|c1]; [done|].
  unfold handle_frame. destruct data as [msg|]; [|done].
  rewrite !prop_or_empty.
  destruct (prop "to" (Some msg)) as [[| | |to| |]|] eqn:Hto; try done.
  destruct (prop "payload" (Some msg)) as [payload|] eqn:Hp; [|done].
  destruct (negb _ || negb _); [done|].
  destruct (is_str _ "list"); [done|].
  destruct (negb (bool_decide _)); [done|].
  split; [apply relay_local_peers|].
  intros x Hid Hx. apply relay_local_partner_other; [done|]. congruence.
Qed.

(** X2: a client frame never changes the peer registry, and it changes the
    pairing map at most at the sender's own entry and at the entry of the peer
    it addresses: the pairing of every third peer is left as it was, whatever
    the frame contains. *)
Theorem on_message_pairing_is_local len e id now data c st :
  peers (on_message len e id now data c st).1.2 = peers st
  ∧ ∀ x, x ≠ id → prop "to" data ≠ Some (JStr x) →
         partner (on_message len e id now data c st).1.2 !! x = partner st !! x.
Proof. apply on_message_registries. Qed.

(** ** Teardown *)

Lemma on_close_partner_self e id c st :
  partner (on_close e id c st).1.2 !! id = None.
Proof.
  simpl. destruct (partner_of id st) as [p|]; [|apply lookup_delete_eq].
  destruct (bool_decide (delete id (partner st) !! p = _)) eqn:Hd; [|apply lookup_delete_eq].
  apply bool_decide_eq_true in Hd.
  destruct (decide (p = id)) as [->|Hne]; [by rewrite lookup_delete_eq in Hd|].
  rewrite lookup_insert_ne by done. apply lookup_delete_eq.
Qed.

Lemma on_close_partner_other e id c st x :
  x ≠ id →
  partner (on_close e id c st).1.2 !! x =
    if bool_decide (partner_of id st = Some x ∧ partner st !! x = Some (Some id))
    then Some None else partner st !! x.
Proof.
  intros Hx. simpl. destruct (partner_of id st) as [p|] eqn:Hp.
  - destruct (decide (p = x)) as [->|Hne].
    + rewrite lookup_delete_ne by done.
      destruct (decide (partner st !! x = Some (Some id))) as [Hm|Hm].
      * rewrite bool_decide_eq_true_2 by done.
        rewrite bool_decide_eq_true_2 by done. apply lookup_insert_eq.
      * rewrite bool_decide_eq_false_2 by done.
        rewrite bool_decide_eq_false_2 by tauto. by rewrite lookup_delete_ne.
    + rewrite (bool_decide_eq_false_2 (Some p = Some x ∧ _)) by (intros [? _]; congruence).
      destruct (bool_decide _).
      * rewrite lookup_insert_ne by done. by rewrite lookup_delete_ne.
      * by rewrite lookup_delete_ne.
  - rewrite (bool_decide_eq_false_2 (None = Some x ∧ _)) by (intros [? _]; congruence).
    by rewrite lookup_delete_ne.
Qed.

Lemma on_close_peers e id c st x :
  x ∈ peers (on_close e id c st).1.2 ↔ x ∈ peers st ∧ x ≠ id.
Proof. simpl. rewrite elem_of_difference, elem_of_singleton. tauto. Qed.

(** X3: closing a connection removes its id from the registry and from the
    pairing map; the peer it pointed at is set to null exactly when that peer
    pointed back at it; every other entry of the pairing map, and both
    counters, are left as they were. *)
Theorem on_close_cleanup e id c st :
  let st' := (on_close e id c st).1.2 in
  (id ∉ peers st')
  ∧ (∀ x, x ≠ id → x ∈ peers st' ↔ x ∈ peers st)
  ∧ partner st' !! id = None
  ∧ (∀ x, x ≠ id →
       partner st' !! x =
         if bool_decide (partner_of id st = Some x ∧ partner st !! x = Some (Some id))
         then Some None else partner st !! x)
  ∧ ws_errors st' = ws_errors st ∧ ws_signals st' = ws_signals st.
Proof.
  cbv zeta. split; [rewrite on_close_peers; tauto|].
  split; [intros x Hx; rewrite on_close_peers; tauto|].
  split; [apply on_close_partner_self|].
  split; [apply on_close_partner_other|done].
Qed.

(** X4: the release on close is one-sided. If A has dialed B (Pairing[A] = B)
    and B, which does not point back at A, closes, then A keeps pointing at
    the departed B: every later offer from A to another connected peer is
    answered with busy, and no frame that A addresses to B (a bye included)
    changes the pairing map, since B is no longer a local destination. *)
Theorem dialing_survives_callee_close len e a b cb st :
  a ≠ b →
  partner_of a st = Some b →
  partner_of b st ≠ Some a →
  let st' := (on_close e b cb st).1.2 in
  partner_of a st' = Some b
  ∧ (b ∉ peers st')
  ∧ (∀ now msg to payload c c1,
       rate_check now c = RatePassed c1 →
       signal_envelope msg to payload → sized_kind len payload "offer" →
       to ∈ peers st' → to ≠ b →
       on_message len e a now (Some msg) c st'
       = (cancel_idle c1, st', [Send a (Signal (Some (JStr to)) busy_payload)]))
  ∧ (∀ now msg payload c,
       signal_envelope msg b payload →
       partner (on_message len e a now (Some msg) c st').1.2 = partner st').
Proof.
  intros Hab Ha Hb. cbv zeta.
  set (st' := (on_close e b cb st).1.2).
  assert (partner_of a st' = Some b) as Ha'.
  { unfold partner_of, st'. rewrite on_close_partner_other by done.
    rewrite bool_decide_eq_false_2 by tauto. exact Ha. }
  assert (b ∉ peers st') as Hnin by (unfold st'; rewrite on_close_peers; tauto).
  split; [done|]. split; [done|]. split.
  - intros now msg to payload c c1 Hr He Hk Hin Hto.
    rewrite (on_message_local _ _ _ _ _ to payload _ c1) by done.
    rewrite relay_local_offer by done.
    unfold conflict. rewrite Ha'. simpl.
    destruct (String.eqb_spec b to) as [->|_]; done.
  - intros now msg payload c He. unfold on_message.
    destruct (rate_check now c) as [c1|c1]; [done|].
    rewrite (handle_frame_signal _ _ _ _ b payload) by done.
    by rewrite bool_decide_eq_false_2.
Qed.

(** ** Sessions: offer, answer, bye *)

Lemma relay_local_bye len id to payload c st :
  sized_kind len payload "bye" →
  relay_local len id to payload c st =
    (cancel_idle c,
     inc_signals (JStr "bye")
       (set_partner
          (let m := if is_peer (partner_of id st) to
                    then <[id := None]> (partner st) else partner st in
           if is_peer (partner_of to st) id then <[to := None]> m else m) st),
     [Send to (Signal (Some (JStr id)) payload)]).
Proof.
  intros (Hk & Hs & Hc). unfold relay_local. rewrite Hk, Hs, Hc. simpl. done.
Qed.

Lemma partner_of_insert_some x y m st :
  y ≠ "" → partner_of x (inc_signals (JStr "k") (set_partner (<[x := Some y]> m) st)) = Some y.
Proof.
  intros Hy. unfold partner_of. simpl. rewrite lookup_insert_eq.
  destruct (String.eqb_spec y ""); done.
Qed.

Lemma partner_of_set x l m st :
  partner_of x (inc_signals l (set_partner m st))
  = match m !! x with
    | Some (Some p) => if String.eqb p "" then None else Some p
    | _ => None
    end.
Proof. done. Qed.

Lemma partner_of_None_lookup x st :
  partner_of x st = None →
  partner st !! x = None ∨ partner st !! x = Some None ∨ partner st !! x = Some (Some "").
Proof.
  unfold partner_of. destruct (partner st !! x) as [[p|]|]; auto.
  destruct (String.eqb_spec p ""); [subst; auto|done].
Qed.

Lemma is_peer_Some x y : is_peer (Some x) y = true ↔ x = y.
Proof. simpl. apply String.eqb_eq. Qed.

Local Ltac eval_partner :=
  repeat first
    [ rewrite partner_of_set
    | rewrite lookup_insert_eq
    | rewrite lookup_insert_ne by congruence
    | rewrite String.eqb_refl
    | progress simpl ].

(** X5: a whole session. From a state in which A and B are both Free, an
    offer from A to B is forwarded and makes A point at B; B's answer is
    forwarded and makes the pairing mutual; a bye from A is forwarded and sets
    both entries back to null. *)
Theorem offer_answer_bye_cycle len a b po pa pb c st :
  a ≠ b → a ≠ "" → b ≠ "" →
  partner_of a st = None → partner_of b st = None →
  sized_kind len po "offer" → sized_kind len pa "answer" → sized_kind len pb "bye" →
  let r1 := relay_local len a b po c st in
  let r2 := relay_local len b a pa c r1.1.2 in
  let r3 := relay_local len a b pb c r2.1.2 in
  (r1.2 = [Send b (Signal (Some (JStr a)) po)]
   ∧ partner_of a r1.1.2 = Some b ∧ partner_of b r1.1.2 = None)
  ∧ (r2.2 = [Send a (Signal (Some (JStr b)) pa)]
     ∧ partner_of a r2.1.2 = Some b ∧ partner_of b r2.1.2 = Some a)
  ∧ (r3.2 = [Send b (Signal (Some (JStr a)) pb)]
     ∧ partner r3.1.2 !! a = Some None ∧ partner r3.1.2 !! b = Some None).
Proof.
  intros Hab Ha Hb Hfa Hfb Ho Han Hby. cbv zeta.
  apply String.eqb_neq in Ha as Ha', Hb as Hb'.
  assert (conflict a b st = false) as Hc1 by (unfold conflict; by rewrite Hfa, Hfb).
  rewrite (relay_local_offer len a b po c st Ho), Hc1. cbn [fst snd].
  set (st1 := inc_signals _ _).
  assert (partner_of a st1 = Some b) as H1a by (unfold st1; eval_partner; by rewrite Hb').
  assert (partner_of b st1 = None) as H1b.
  { unfold st1. eval_partner. exact Hfb. }
  split; [done|].
  assert (conflict b a st1 = false) as Hc2.
  { unfold conflict. rewrite H1a, H1b. simpl. by rewrite String.eqb_refl. }
  rewrite (relay_local_answer len b a pa c st1 Han), Hc2. cbn [fst snd].
  set (st2 := inc_signals _ _).
  assert (partner_of a st2 = Some b) as H2a by (unfold st2; eval_partner; by rewrite Hb').
  assert (partner_of b st2 = Some a) as H2b by (unfold st2; eval_partner; by rewrite Ha').
  split; [done|].
  rewrite (relay_local_bye len a b pb c st2 Hby).
  rewrite H2a, H2b. simpl. rewrite !String.eqb_refl. simpl.
  split; [done|]. split.
  - rewrite lookup_insert_ne by done. apply lookup_insert_eq.
  - apply lookup_insert_eq.
Qed.

Lemma partner_of_inc_signals x l st :
  partner_of x (inc_signals l st) = partner_of x st.
Proof. done. Qed.

Lemma partner_of_set_partner_id x st :
  partner_of x (set_partner (partner st) st) = partner_of x st.
Proof. done. Qed.

Lemma partner_of_insert_none x y m st :
  partner_of x (set_partner (<[y := None]> m) st)
  = if decide (y = x) then None else partner_of x (set_partner m st).
Proof.
  unfold partner_of. simpl. destruct (decide (y = x)) as [->|Hne].
  - by rewrite lookup_insert_eq.
  - by rewrite lookup_insert_ne.
Qed.

(** X6: a bye is forwarded unconditionally, also from a peer that has no
    pairing with the destination, in which case the pairing map is not touched;
    and a repeated bye is forwarded again but leaves the pairing map exactly as
    the first one left it. *)
Theorem bye_is_forwarded_and_idempotent len id to payload c st :
  sized_kind len payload "bye" →
  let r1 := relay_local len id to payload c st in
  let r2 := relay_local len id to payload c r1.1.2 in
  r1.2 = [Send to (Signal (Some (JStr id)) payload)]
  ∧ r2.2 = [Send to (Signal (Some (JStr id)) payload)]
  ∧ partner r2.1.2 = partner r1.1.2
  ∧ (is_peer (partner_of id st) to = false → is_peer (partner_of to st) id = false →
     partner r1.1.2 = partner st).
Proof.
  intros Hk. cbv zeta. rewrite (relay_local_bye len id to payload c st Hk). cbn [fst snd].
  set (st1 := inc_signals _ _).
  rewrite (relay_local_bye len id to payload c st1 Hk). cbn [fst snd].
  split; [done|]. split; [done|].
  assert (is_peer (partner_of id st1) to = false ∧ is_peer (partner_of to st1) id = false)
    as [H1 H2].
  { unfold st1. cbv zeta.
    destruct (is_peer (partner_of id st) to) eqn:Hf;
      destruct (is_peer (partner_of to st) id) eqn:Ht;
      rewrite !partner_of_inc_signals, ?partner_of_insert_none,
        ?partner_of_set_partner_id;
      repeat case_decide; simpl; done. }
  split.
  - rewrite H1, H2. done.
  - intros Hf Ht. unfold st1. cbv zeta. by rewrite Hf, Ht.
Qed.

(** X7: crossed offers. When A and B are both Free and each sends the other
    an offer, neither is refused: both offers are forwarded, and after the
    second one the pairing is already mutual, before any answer. *)
Theorem crossed_offers_pair len a b p1 p2 c st :
  a ≠ b → a ≠ "" → b ≠ "" →
  partner_of a st = None → partner_of b st = None →
  sized_kind len p1 "offer" → sized_kind len p2 "offer" →
  let r1 := relay_local len a b p1 c st in
  let r2 := relay_local len b a p2 c r1.1.2 in
  r1.2 = [Send b (Signal (Some (JStr a)) p1)]
  ∧ r2.2 = [Send a (Signal (Some (JStr b)) p2)]
  ∧ partner_of a r2.1.2 = Some b ∧ partner_of b r2.1.2 = Some a.
Proof.
  intros Hab Ha Hb Hfa Hfb Ho1 Ho2. cbv zeta.
  apply String.eqb_neq in Ha as Ha', Hb as Hb'.
  assert (conflict a b st = false) as Hc1 by (unfold conflict; by rewrite Hfa, Hfb).
  rewrite (relay_local_offer len a b p1 c st Ho1), Hc1. cbn [fst snd].
  set (st1 := inc_signals _ _).
  assert (partner_of a st1 = Some b) as H1a by (unfold st1; eval_partner; by rewrite Hb').
  assert (partner_of b st1 = None) as H1b.
  { unfold st1. eval_partner. exact Hfb. }
  assert (conflict b a st1 = false) as Hc2.
  { unfold conflict. rewrite H1a, H1b. simpl. by rewrite String.eqb_refl. }
  rewrite (relay_local_offer len b a p2 c st1 Ho2), Hc2. cbn [fst snd].
  split; [done|]. split; [done|]. split.
  - eval_partner. by rewrite Hb'.
  - eval_partner. by rewrite Ha'.
Qed.

Lemma dialing_survives_callee_close_witness :
  let st' := (on_close default_env "B" fresh_conn a_dialing_b).1.2 in
  partner_of "A" st' = Some "B"
  ∧ on_message quoted_length default_env "A" 0 (Some (envelope "C" (of_kind "offer")))
      fresh_conn st'
    = (cancel_idle fresh_conn_1, st',
       [Send "A" (Signal (Some (JStr "C")) busy_payload)])
  ∧ partner (on_message quoted_length default_env "A" 0
               (Some (envelope "B" (of_kind "bye"))) fresh_conn st').1.2
    = partner st'.
Proof.
  cbv zeta.
  destruct (dialing_survives_callee_close quoted_length default_env "A" "B"
              fresh_conn a_dialing_b) as (H1 & H2 & H3 & H4).
  - discriminate.
  - reflexivity.
  - vm_compute. discriminate.
  - split; [exact H1|]. split.
    + apply (H3 0 (envelope "C" (of_kind "offer")) "C" (of_kind "offer")
               fresh_conn fresh_conn_1).
      * reflexivity.
      * repeat split.
      * repeat split.
      * apply (bool_decide_unpack
                 ("C" ∈ peers (on_close default_env "B" fresh_conn a_dialing_b).1.2)).
        vm_compute. exact I.
      * discriminate.
    + apply (H4 0 (envelope "B" (of_kind "bye")) (of_kind "bye") fresh_conn).
      repeat split.
Defined.

Lemma offer_answer_bye_cycle_witness :
  let r1 := relay_local quoted_length "A" "B" (of_kind "offer") fresh_conn two_free in
  let r2 := relay_local quoted_length "B" "A" (of_kind "answer") fresh_conn r1.1.2 in
  let r3 := relay_local quoted_length "A" "B" (of_kind "bye") fresh_conn r2.1.2 in
  (r1.2 = [Send "B" (Signal (Some (JStr "A")) (of_kind "offer"))]
   ∧ partner_of "A" r1.1.2 = Some "B" ∧ partner_of "B" r1.1.2 = None)
  ∧ (r2.2 = [Send "A" (Signal (Some (JStr "B")) (of_kind "answer"))]
     ∧ partner_of "A" r2.1.2 = Some "B" ∧ partner_of "B" r2.1.2 = Some "A")
  ∧ (r3.2 = [Send "B" (Signal (Some (JStr "A")) (of_kind "bye"))]
     ∧ partner r3.1.2 !! "A" = Some None ∧ partner r3.1.2 !! "B" = Some None).
Proof.
  apply (offer_answer_bye_cycle quoted_length "A" "B"
           (of_kind "offer") (of_kind "answer") (of_kind "bye") fresh_conn two_free);
    try discriminate; try reflexivity; repeat split.
Defined.

Lemma bye_is_forwarded_and_idempotent_witness :
  let r1 := relay_local quoted_length "A" "B" (of_kind "bye") fresh_conn three_paired in
  let r2 := relay_local quoted_length "A" "B" (of_kind "bye") fresh_conn r1.1.2 in
  r1.2 = [Send "B" (Signal (Some (JStr "A")) (of_kind "bye"))]
  ∧ r2.2 = [Send "B" (Signal (Some (JStr "A")) (of_kind "bye"))]
  ∧ partner r2.1.2 = partner r1.1.2
  ∧ (is_peer (partner_of "A" three_paired) "B" = false →
     is_peer (partner_of "B" three_paired) "A" = false →
     partner r1.1.2 = partner three_paired).
Proof.
  apply (bye_is_forwarded_and_idempotent quoted_length "A" "B" (of_kind "bye")
           fresh_conn three_paired).
  repeat split.
Defined.

Lemma crossed_offers_pair_witness :
  let r1 := relay_local quoted_length "A" "B" (of_kind "offer") fresh_conn two_free in
  let r2 := relay_local quoted_length "B" "A" (of_kind "offer") fresh_conn r1.1.2 in
  r1.2 = [Send "B" (Signal (Some (JStr "A")) (of_kind "offer"))]
  ∧ r2.2 = [Send "A" (Signal (Some (JStr "B")) (of_kind "offer"))]
  ∧ partner_of "A" r2.1.2 = Some "B" ∧ partner_of "B" r2.1.2 = Some "A".
Proof.
  apply (crossed_offers_pair quoted_length "A" "B" (of_kind "offer") (of_kind "offer")
           fresh_conn two_free);
    try discriminate; try reflexivity; repeat split.
Defined.

(** ** Invariants of the transition system *)

Lemma relay_local_dom len id to payload c st :
  id ∈ dom (partner st) → to ∈ dom (partner st) →
  dom (partner (relay_local len id to payload c st).1.2) = dom (partner st).
Proof.
  intros Hid Hto. unfold relay_local.
  repeat (case_match; simpl); rewrite ?dom_insert_L; set_solver.
Qed.

Lemma on_message_dom len e id now data c st :
  dom (partner st) = peers st → id ∈ peers st →
  dom (partner (on_message len e id now data c st).1.2) = dom (partner st).
Proof.
  intros Hdom Hid. unfold on_message. destruct (rate_check now c) as [c1|c1]; [done|].
  unfold handle_frame. destruct data as [msg|]; [|done].
  rewrite !prop_or_empty.
  destruct (prop "to" (Some msg)) as [[| | |to| |]|]; try done.
  destruct (prop "payload" (Some msg)) as [payload|]; [|done].
  destruct (negb _ || negb _); [done|].
  destruct (is_str _ "list"); [done|].
  destruct (bool_decide (to ∈ peers st)) eqn:Hin; [|done]. simpl.
  apply bool_decide_eq_true in Hin.
  apply relay_local_dom; by rewrite Hdom.
Qed.

Lemma on_bus_message_registries e channel message st :
  peers (on_bus_message e channel message st).1 = peers st
  ∧ partner (on_bus_message e channel message st).1 = partner st
  ∧ ws_errors (on_bus_message e channel message st).1 = ws_errors st.
Proof. unfold on_bus_message. by repeat (case_match; simpl). Qed.

Lemma sweep_dom (m : gmap string conn) :
  dom (map_imap (λ id c, Some (sweep_client id c).1) m) = dom m.
Proof.
  apply set_eq. intros x. rewrite !elem_of_dom, map_lookup_imap.
  destruct (m !! x); simpl; split; intros [? ?]; eauto; done.
Qed.

Lemma step_registry_ok len e ev s :
  registry_ok s → registry_ok (step len e ev s).1.
Proof.
  intros [Hp Hc]. destruct ev as [id now|id now data|id|id|id| |ch m]; simpl.
  - split; simpl; rewrite dom_insert_L; congruence.
  - destruct (conns s !! id) as [c|] eqn:Hid; [|done].
    assert (id ∈ peers (rstate s)) as Hin by (rewrite <- Hc; apply elem_of_dom; eauto).
    pose proof (on_message_dom len e id now data c (rstate s) Hp Hin) as Hd.
    pose proof (proj1 (on_message_registries len e id now data c (rstate s))) as Hpe.
    destruct (on_message _ _ _ _ _ _ _) as [[c' st'] out]. simpl in *.
    split; simpl; [congruence|]. rewrite dom_insert_L, Hc, Hpe. set_solver.
  - destruct (conns s !! id) as [c|] eqn:Hid; [|done]. split; simpl.
    + destruct (partner_of id (rstate s)) as [p|]; [|by rewrite dom_delete_L, Hp].
      destruct (bool_decide _) eqn:Hb; [|by rewrite dom_delete_L, Hp].
      apply bool_decide_eq_true in Hb.
      assert (p ∈ dom (delete id (partner (rstate s)))) by (apply elem_of_dom; eauto).
      rewrite dom_insert_L. rewrite dom_delete_L in *. rewrite Hp in *. set_solver.
    + by rewrite dom_delete_L, Hc.
  - destruct (conns s !! id) as [c|] eqn:Hid; [|done].
    assert (id ∈ dom (conns s)) by (apply elem_of_dom; eauto).
    destruct (on_idle_timeout id c) as [c' out]. split; simpl; [done|].
    rewrite dom_insert_L. set_solver.
  - destruct (conns s !! id) as [c|] eqn:Hid; [|done].
    assert (id ∈ dom (conns s)) by (apply elem_of_dom; eauto).
    split; simpl; [done|]. rewrite dom_insert_L. set_solver.
  - split; simpl; [done|]. by rewrite sweep_dom.
  - pose proof (on_bus_message_registries e ch m (rstate s)) as (H1 & H2 & _).
    destruct (on_bus_message e ch m (rstate s)) as [st' out]. simpl in *.
    split; simpl; congruence.
Qed.

Lemma run_registry_ok len e evs s :
  registry_ok s → registry_ok (run len e evs s).1.
Proof.
  revert s. induction evs as [|ev evs IH]; intros s Hs; [done|].
  simpl. pose proof (step_registry_ok len e ev s Hs) as H1.
  destruct (step len e ev s) as [s1 out1]. specialize (IH s1 H1).
  by destruct (run len e evs s1).
Qed.

(** X8: in every state reached from the initial one, the peer registry, the
    pairing map and the set of open connections hold exactly the same ids: a
    connected peer always has a pairing entry, and a closed one leaves no
    entry behind in any of the three. *)
Theorem registries_agree len e evs :
  let s := (run len e evs initial).1 in
  dom (partner (rstate s)) = peers (rstate s) ∧ dom (conns s) = peers (rstate s).
Proof.
  apply (run_registry_ok len e evs initial). split; simpl; by rewrite !dom_empty_L.
Qed.

Lemma on_bus_message_outputs e channel message st :
  (List.length (on_bus_message e channel message st).2 ≤ 1)%nat
  ∧ ∀ x, x ∈ (on_bus_message e channel message st).2 →
      ∃ to from payload,
        x = Send to (Signal from payload) ∧ to ∈ peers st
        ∧ channel = redisSignalsChannel e
        ∧ prop "to" message = Some (JStr to)
        ∧ from = prop "from" message
        ∧ prop "payload" message = Some payload.
Proof.
  unfold on_bus_message.
  destruct (String.eqb_spec channel (redisSignalsChannel e)) as [Hch|_]; cbn [negb];
    [|no_effect].
  destruct message as [msg|]; [|no_effect]. rewrite !prop_or_empty.
  destruct (prop "to" (Some msg)) as [[| | |to| |]|] eqn:Hto; try no_effect.
  destruct (prop "payload" (Some msg)) as [payload|] eqn:Hp; [|no_effect].
  destruct (negb _ || negb _); [no_effect|].
  destruct (bool_decide (to ∈ peers st)) eqn:Hin; simpl; [|no_effect].
  apply bool_decide_eq_true in Hin. split; [lia|].
  intros x Hx. apply list_elem_of_singleton in Hx.
  exists to, (prop "from" (Some msg)), payload. done.
Qed.

Lemma filter_send_nil id out :
  (∀ d m, Send d m ∈ out → d ≠ id) → List.filter (is_send_to id) out = [].
Proof.
  induction out as [|x out IH]; intros H; [done|]. simpl.
  destruct (is_send_to id x) eqn:Hx.
  - destruct x as [d m| | | | | |]; try done. simpl in Hx.
    apply String.eqb_eq in Hx. exfalso. apply (H d m); [left|done].
  - apply IH. intros d m Hin. apply (H d m). by right.
Qed.

(** A write to a connection that is not registered can only be the welcome
    of its own connection event. *)
Lemma step_sends len e ev s id :
  registry_ok s → id ∉ peers (rstate s) →
((id ∉ peers (rstate (step len e ev s).1))
   ∧ List.filter (is_send_to id) (step len e ev s).2 = [])
  ∨ ∃ rest, List.filter (is_send_to id) (step len e ev s).2 = Send id (Welcome id) :: rest.
Proof.
  intros [Hp Hc] Hid. destruct ev as [d now|d now data|d|d|d| |ch m]; simpl.
  - destruct (decide (d = id)) as [->|Hne].
    + right. rewrite String.eqb_refl. eauto.
    + left. split; [set_solver|].
      apply String.eqb_neq in Hne. rewrite Hne. by destruct (useRedis e).
  - left. destruct (conns s !! d) as [c|] eqn:Hd; [|done].
    assert (d ∈ peers (rstate s)) as Hin by (rewrite <- Hc; apply elem_of_dom; eauto).
    pose proof (on_message_registries len e d now data c (rstate s)) as [Hpe _].
    pose proof (on_message_outputs len e d now data c (rstate s)) as [_ Hout].
    destruct (on_message _ _ _ _ _ _ _) as [[c' st'] out]. simpl in *.
    split; [by rewrite Hpe|]. apply filter_send_nil. intros d' m' Hin'.
    destruct (Hout _ Hin') as [?|[?|(to & payload & _ & _ & [[Hto [?|?]]|(_ & _ & ?)])]];
      simplify_eq; congruence.
  - left. destruct (conns s !! d) as [c|] eqn:Hd; [|done]. simpl.
    split; [set_solver|]. by destruct (useRedis e).
  - left. destruct (conns s !! d) as [c|] eqn:Hd; [|done].
    unfold on_idle_timeout. by destruct (signalTimeout c).
  - left. by destruct (conns s !! d).
  - left. split; [done|]. apply filter_send_nil. intros d m Hin.
    exfalso. apply list_elem_of_In, in_concat in Hin as (l & Hl & Hin).
    apply in_map_iff in Hl as ([d' c'] & <- & _). simpl in Hin.
    unfold sweep_client in Hin. destruct (negb (isAlive c')); simpl in Hin;
      destruct Hin as [?|[]]; done.
  - left. pose proof (on_bus_message_registries e ch m (rstate s)) as (H1 & _ & _).
    pose proof (on_bus_message_outputs e ch m (rstate s)) as [_ Hout].
    destruct (on_bus_message e ch m (rstate s)) as [st' out]. simpl in *.
    split; [by rewrite H1|]. apply filter_send_nil. intros d' m' Hin Heq.
    destruct (Hout _ Hin) as (to & from & payload & Hx & Hto & _). simplify_eq. done.
Qed.

Lemma run_welcome_first len e evs :
  ∀ s id, registry_ok s → id ∉ peers (rstate s) →
    ∀ x, head (List.filter (is_send_to id) (run len e evs s).2) = Some x →
         x = Send id (Welcome id).
Proof.
  induction evs as [|ev evs IH]; intros s id Hs Hid x; [done|].
  simpl. pose proof (step_registry_ok len e ev s Hs) as Hs1.
  pose proof (step_sends len e ev s id Hs Hid) as Hstep.
  destruct (step len e ev s) as [s1 out1]. specialize (IH s1 id Hs1).
  destruct (run len e evs s1) as [s2 out2]. simpl in *.
  rewrite List.filter_app.
  destruct Hstep as [[Hid1 ->]|[rest ->]]; simpl.
  - by apply IH.
  - by intros [= <-].
Qed.

(** X9: the first thing the server ever writes to a connection is its
    welcome. In every run from the initial state, and for every id, the first
    message sent to that id, if any, is [{type: 'welcome', id}]: no relayed
    envelope, busy notice or peers list can precede it. *)
Theorem welcome_comes_first len e evs id :
  head (List.filter (is_send_to id) (run len e evs initial).2) = None
  ∨ head (List.filter (is_send_to id) (run len e evs initial).2)
    = Some (Send id (Welcome id)).
Proof.
  destruct (head _) as [x|] eqn:Hx; [right|by left].
  f_equal. revert Hx. apply run_welcome_first.
  - split; simpl; by rewrite !dom_empty_L.
  - simpl. apply not_elem_of_empty.
Qed.

(** X10: the Redis subscriber is a pure delivery endpoint. Whatever arrives
    on whatever channel, it leaves the peer registry, the pairing map and the
    error counter untouched, and it writes at most one message: the received
    [payload], with the received [from] (possibly absent), to the addressed
    peer, and only if the channel is the signals channel and that peer is
    connected here. *)
Theorem bus_delivery_is_passive e channel message st :
  peers (on_bus_message e channel message st).1 = peers st
  ∧ partner (on_bus_message e channel message st).1 = partner st
  ∧ ws_errors (on_bus_message e channel message st).1 = ws_errors st
  ∧ (List.length (on_bus_message e channel message st).2 ≤ 1)%nat
  ∧ ∀ x, x ∈ (on_bus_message e channel message st).2 →
      ∃ to from payload,
        x = Send to (Signal from payload) ∧ to ∈ peers st
        ∧ channel = redisSignalsChannel e
        ∧ prop "to" message = Some (JStr to)
        ∧ from = prop "from" message
        ∧ prop "payload" message = Some payload.
Proof.
  pose proof (on_bus_message_registries e channel message st) as (H1 & H2 & H3).
  pose proof (on_bus_message_outputs e channel message st) as [H4 H5].
  done.
Qed.

Lemma relay_local_timer len id to payload c st :
  signalTimeout (relay_local len id to payload c st).1.1 = signalTimeout c
  ∨ signalTimeout (relay_local len id to payload c st).1.1 = Cleared.
Proof.
  assert (signalTimeout (cancel_idle c) = Cleared) as Hc.
  { unfold cancel_idle. by destruct (signalTimeout c) eqn:E. }
  unfold relay_local. repeat (case_match; simpl; auto).
Qed.

Lemma on_message_timer len e id now data c st :
  signalTimeout (on_message len e id now data c st).1.1 = Pending →
  signalTimeout c = Pending.
Proof.
  unfold on_message. pose proof (rate_check_timer now c) as Hr.
  destruct (rate_check now c) as [c1|c1]; simpl; [congruence|].
  rewrite <- Hr. unfold handle_frame.
  destruct data as [msg|]; [|done]. rewrite !prop_or_empty.
  destruct (prop "to" (Some msg)) as [[| | |to| |]|]; try done.
  destruct (prop "payload" (Some msg)) as [payload|]; [|done].
  destruct (negb _ || negb _); [done|].
  destruct (is_str _ "list"); [done|].
  destruct (negb (bool_decide _)); [done|].
  destruct (relay_local_timer len id to payload c1 st) as [-> | ->]; done.
Qed.

Lemma step_timer_spent len e ev s id :
  timer_spent s id → is_connect_of id ev = false →
  timer_spent (step len e ev s).1 id
  ∧ CloseWs id 1000 "idle" ∉ (step len e ev s).2.
Proof.
  intros Hs Hev. destruct ev as [d now|d now data|d|d|d| |ch m]; simpl.
  - simpl in Hev. apply String.eqb_neq in Hev. split.
    + intros c. simpl. rewrite lookup_insert_ne by done. apply Hs.
    + destruct (useRedis e); intros Hin; repeat (apply elem_of_cons in Hin as [?|Hin]; [done|]);
        by apply elem_of_nil in Hin.
  - destruct (conns s !! d) as [c|] eqn:Hd; [|by split; [|apply not_elem_of_nil]].
    pose proof (on_message_timer len e d now data c (rstate s)) as Ht.
    pose proof (on_message_outputs len e d now data c (rstate s)) as [_ Hout].
    destruct (on_message _ _ _ _ _ _ _) as [[c' st'] out]. simpl in *. split.
    + intros c0. simpl. destruct (decide (d = id)) as [->|Hne].
      * rewrite lookup_insert_eq. intros [= <-] Hp. by apply (Hs c), Ht.
      * rewrite lookup_insert_ne by done. apply Hs.
    + intros Hin.
      destruct (Hout _ Hin) as [?|[?|(to & payload & _ & _ & [[_ [?|?]]|(_ & _ & ?)])]]; done.
  - destruct (conns s !! d) as [c|] eqn:Hd; [|by split; [|apply not_elem_of_nil]].
    simpl. split.
    + intros c0. simpl. destruct (decide (d = id)) as [->|Hne].
      * by rewrite lookup_delete_eq.
      * rewrite lookup_delete_ne by done. apply Hs.
    + destruct (useRedis e); [|apply not_elem_of_nil].
      intros Hin. apply list_elem_of_singleton in Hin. done.
  - destruct (conns s !! d) as [c|] eqn:Hd; [|by split; [|apply not_elem_of_nil]].
    unfold on_idle_timeout. destruct (signalTimeout c) eqn:Hc; simpl.
    + split.
      * intros c0. simpl. destruct (decide (d = id)) as [->|Hne].
        -- rewrite lookup_insert_eq. by intros [= <-].
        -- rewrite lookup_insert_ne by done. apply Hs.
      * intros Hin. apply list_elem_of_singleton in Hin. injection Hin as ->.
        by apply (Hs c).
    + split; [|apply not_elem_of_nil].
      intros c0. simpl. destruct (decide (d = id)) as [->|Hne].
      * rewrite lookup_insert_eq. intros [= <-]. congruence.
      * rewrite lookup_insert_ne by done. apply Hs.
    + split; [|apply not_elem_of_nil].
      intros c0. simpl. destruct (decide (d = id)) as [->|Hne].
      * rewrite lookup_insert_eq. intros [= <-]. congruence.
      * rewrite lookup_insert_ne by done. apply Hs.
  - destruct (conns s !! d) as [c|] eqn:Hd; [|by split; [|apply not_elem_of_nil]].
    simpl. split; [|apply not_elem_of_nil].
    intros c0. simpl. destruct (decide (d = id)) as [->|Hne].
    + rewrite lookup_insert_eq. intros [= <-]. simpl. by apply Hs.
    + rewrite lookup_insert_ne by done. apply Hs.
  - split.
    + intros c0. simpl. rewrite map_lookup_imap.
      destruct (conns s !! id) as [c|] eqn:Hc; [|done]. simpl.
      intros [= <-]. unfold sweep_client. destruct (negb (isAlive c)); simpl; by apply Hs.
    + intros Hin. apply list_elem_of_In, in_concat in Hin as (l & Hl & Hin).
      apply in_map_iff in Hl as ([d' c'] & <- & _). simpl in Hin.
      unfold sweep_client in Hin. destruct (negb (isAlive c')); simpl in Hin;
        destruct Hin as [?|[]]; done.
  - pose proof (on_bus_message_outputs e ch m (rstate s)) as [_ Hout].
    destruct (on_bus_message e ch m (rstate s)) as [st' out]. simpl in *.
    split; [done|]. intros Hin.
    destruct (Hout _ Hin) as (? & ? & ? & ? & _). done.
Qed.

(** X11: the idle timer is one-shot. Once the timer of a connection has
    fired or has been cleared (or the connection is gone), no sequence of
    events that does not open a new connection under the same id makes the
    server close it with 1000 "idle": frames never re-arm the timer. *)
Theorem spent_idle_timer_never_closes len e evs s id :
  timer_spent s id →
  Forall (λ ev, is_connect_of id ev = false) evs →
  CloseWs id 1000 "idle" ∉ (run len e evs s).2.
Proof.
  intros Hs Hevs. revert s Hs.
  induction Hevs as [|ev evs Hev _ IH]; intros s Hs; [apply not_elem_of_nil|].
  simpl. destruct (step_timer_spent len e ev s id Hs Hev) as [Hs1 Hout1].
  destruct (step len e ev s) as [s1 out1]. specialize (IH s1 Hs1).
  destruct (run len e evs s1) as [s2 out2]. simpl in *.
  rewrite elem_of_app. tauto.
Qed.

Lemma spent_idle_timer_never_closes_witness :
  CloseWs "A" 1000 "idle"
  ∉ (run quoted_length default_env
       [EvIdle "A"; EvMessage "A" 2 None; EvClose "B"; EvIdle "A"]
       after_first_offer).2.
Proof.
  apply (spent_idle_timer_never_closes quoted_length default_env
           [EvIdle "A"; EvMessage "A" 2 None; EvClose "B"; EvIdle "A"]
           after_first_offer "A").
  - intros c. vm_compute. intros [= <-]. discriminate.
  - repeat constructor.
Defined.

(** ** The sweep over all clients *)










(** ** Sustained rate *)

Lemma avail_after_gap now c :
  (0 < rate c)%Q → (1 <= burst c)%Q → (0 <= tokens c)%Q →
  (1000 <= inject_Z (now - last c) * rate c)%Q →
  (1 <= avail now c)%Q.
Proof.
  intros Hr Hb Ht Hgap. unfold avail, refill. simpl.
  assert (0 < now - last c) as Hpos.
  { destruct (Z_lt_le_dec 0 (now - last c)) as [|Hle]; [done|]. exfalso.
    rewrite Zle_Qle in Hle. change (inject_Z 0) with 0%Q in Hle.
    assert (inject_Z (now - last c) * rate c <= 0)%Q by nra. lra. }
  replace (Z.max 0 (now - last c)) with (now - last c) by lia.
  apply Math_min_glb; [done|].
  assert (inject_Z (now - last c) / 1000 * rate c
          == inject_Z (now - last c) * rate c / 1000)%Q as -> by field.
  assert (1 <= inject_Z (now - last c) * rate c / 1000)%Q.
  { apply Qle_shift_div_l; lra. }
  lra.
Qed.

(** X13: a client that leaves whole seconds between its frames is never
    closed by the limiter. If [k] seconds refill at least one token
    ([k * rate >= 1]), the burst is at least one and the bucket is not
    negative, and every frame arrives at least [k] seconds after the one before
    it, then no frame of the sequence, however long and whatever it contains,
    closes the connection. The bound is one that the rounding of the
    program's binary64 arithmetic cannot cross: [gap / 1000 >= k],
    [(gap / 1000) * rate >= k * rate >= 1] and [tokens + ... >= 1] survive
    correctly rounded operations because [k] and [1] are representable; a gap
    of just [1000 / rate] milliseconds has no such margin. *)
Theorem paced_frames_never_close len e id k frames c st :
  (1 <= burst c)%Q → (0 <= tokens c)%Q →
  (1 <= inject_Z k * rate c)%Q →
  spaced k (last c) frames →
  existsb is_close (feed len e id frames c st).2 = false.
Proof.
  intros Hb Ht Hk Hp.
  destruct (Qlt_le_dec 0 (rate c)) as [Hr|Hr];
    [|by apply feed_disabled_never_closes].
  revert c st Hb Ht Hk Hr Hp.
  induction frames as [|[t d] rest IH]; intros c st Hb Ht Hk Hr Hp; [done|].
  destruct Hp as [Hgap Hp]. simpl.
  assert (1000 <= inject_Z (t - last c) * rate c)%Q as Hgap'.
  { rewrite Zle_Qle, inject_Z_mult in Hgap.
    change (inject_Z 1000) with 1000%Q in Hgap. nra. }
  pose proof (avail_after_gap t c Hr Hb Ht Hgap') as Ha.
  destruct (on_message_step len e id t d c st Hr)
    as [[Hlt _]|[_ (tm & st' & out & -> & Hn & _)]]; [lra|].
  set (c1 := set_timer tm _).
  specialize (IH c1 st' Hb).
  destruct (feed len e id rest c1 st') as [[c2 st2] out2]. simpl in *.
  rewrite existsb_app, Hn. simpl. apply IH; [lra|done|done|done].
Qed.

Lemma paced_frames_never_close_witness :
  existsb is_close
    (feed quoted_length default_env "A"
       [(1000, None); (2000, Some (envelope "B" (of_kind "offer"))); (3500, None);
        (4500, None); (10000, Some JNull)]
       (Conn true 20 40 0 0 Pending) two_free).2 = false.
Proof.
  apply (paced_frames_never_close quoted_length default_env "A" 1
           [(1000, None); (2000, Some (envelope "B" (of_kind "offer"))); (3500, None);
            (4500, None); (10000, Some JNull)]
           (Conn true 20 40 0 0 Pending) two_free).
  - simpl. lra.
  - simpl. lra.
  - vm_compute. discriminate.
  - simpl. repeat split; lia.
Defined.

(** ** The allow-list of origins *)

Lemma split_on_cons sep s : ∃ x l, split_on sep s = x :: l.
Proof.
  induction s as [|ch s (x & l & IH)]; simpl; [eauto|].
  destruct (Ascii.eqb ch sep); [eauto|]. rewrite IH. eauto.
Qed.

Lemma split_on_no_sep sep s :
  Forall (λ x, has_char sep x = false) (split_on sep s).
Proof.
  induction s as [|ch s IH]; simpl; [by repeat constructor|].
  destruct (Ascii.eqb ch sep) eqn:E; [by constructor|].
  destruct (split_on sep s) as [|x l]; [by repeat constructor; simpl; rewrite E|].
  inversion IH; subst. constructor; [|done]. simpl. by rewrite E.
Qed.

Lemma trim_start_has_char ch s :
  has_char ch (trim_start s) = true → has_char ch s = true.
Proof.
  induction s as [|ch' s IH]; simpl; [done|].
  destruct (is_space ch'); [|done]. intros H. rewrite (IH H). apply orb_true_r.
Qed.

Lemma trim_end_has_char ch s :
  has_char ch (trim_end s) = true → has_char ch s = true.
Proof.
  induction s as [|ch' s IH]; simpl; [done|].
  destruct (trim_end s) as [|ch2 r] eqn:E.
  - destruct (is_space ch'); simpl; [done|]. rewrite orb_false_r. intros ->. done.
  - simpl in *. destruct (Ascii.eqb ch' ch); [done|]. simpl. apply IH.
Qed.

Lemma trim_start_no_lead s : starts_with_space (trim_start s) = false.
Proof.
  induction s as [|ch s IH]; simpl; [done|].
  destruct (is_space ch) eqn:E; [done|]. simpl. done.
Qed.

Lemma trim_end_no_trail s : ends_with_space (trim_end s) = false.
Proof.
  induction s as [|ch s IH]; simpl; [done|].
  destruct (trim_end s) as [|ch2 r] eqn:E.
  - destruct (is_space ch) eqn:Es; simpl; [done|]. done.
  - simpl in *. done.
Qed.

Lemma trim_end_lead s :
  starts_with_space (trim_end s) = true → starts_with_space s = true.
Proof.
  destruct s as [|ch s]; simpl; [done|].
  destruct (trim_end s); [|done].
  destruct (is_space ch) eqn:E; simpl; [done|]. by rewrite E.
Qed.

Lemma trim_clean s :
  has_char "," s = false → trim s ≠ "" → clean_origin (trim s) = true.
Proof.
  intros Hc Hne. unfold clean_origin.
  apply String.eqb_neq in Hne. rewrite Hne. unfold trim in *. cbn [negb andb].
  rewrite trim_end_no_trail, andb_true_r. apply andb_true_iff. split.
  - apply negb_true_iff. destruct (has_char "," (trim_end (trim_start s))) eqn:E; [|done].
    apply trim_end_has_char, trim_start_has_char in E. congruence.
  - apply negb_true_iff.
    destruct (starts_with_space (trim_end (trim_start s))) eqn:E; [|done].
    apply trim_end_lead in E. by rewrite trim_start_no_lead in E.
Qed.

Lemma parse_origins_clean_all raw :
  Forall (λ o, clean_origin o = true) (parse_origins raw).
Proof.
  unfold parse_origins. pose proof (split_on_no_sep "," raw) as Hs.
  induction Hs as [|x l Hx _ IH]; simpl; [constructor|].
  destruct (String.eqb_spec (trim x) ""); simpl; [done|].
  constructor; [by apply trim_clean|done].
Qed.

Lemma parse_origins_no_empty raw : ¬ In "" (parse_origins raw).
Proof.
  intros Hin. pose proof (parse_origins_clean_all raw) as H.
  rewrite Forall_forall in H. apply list_elem_of_In in Hin. by specialize (H _ Hin).
Qed.

(** X14: whatever the configured string, every entry of the parsed
    allow-list is non-empty, contains no comma and has no white space at
    either end; in particular the empty origin is never on the list. *)
Theorem parse_origins_entries_clean raw :
  Forall (λ o, clean_origin o = true) (parse_origins raw)
  ∧ ¬ In "" (parse_origins raw).
Proof. split; [apply parse_origins_clean_all|apply parse_origins_no_empty]. Qed.

Lemma split_on_whole sep x :
  has_char sep x = false → split_on sep x = [x].
Proof.
  induction x as [|ch x IH]; simpl; [done|].
  destruct (Ascii.eqb ch sep); [done|]. simpl. intros H. by rewrite (IH H).
Qed.

Lemma split_on_app sep x y :
  has_char sep x = false →
  split_on sep (x ++ String sep y) = x :: split_on sep y.
Proof.
  induction x as [|ch x IH]; simpl.
  - intros _. by rewrite Ascii.eqb_refl.
  - destruct (Ascii.eqb ch sep); [done|]. simpl. intros H. by rewrite (IH H).
Qed.

Lemma trim_end_id x : ends_with_space x = false → trim_end x = x.
Proof.
  induction x as [|ch x IH]; [done|]. simpl.
  destruct x as [|ch2 x].
  - simpl. by intros ->.
  - intros H. rewrite (IH H). done.
Qed.

Lemma trim_id x :
  starts_with_space x = false → ends_with_space x = false → trim x = x.
Proof.
  intros Hs He. unfold trim.
  assert (trim_start x = x) as -> by (destruct x; simpl in *; [done|by rewrite Hs]).
  by apply trim_end_id.
Qed.

Lemma clean_origin_spec x :
  clean_origin x = true →
  x ≠ "" ∧ has_char "," x = false ∧ trim x = x.
Proof.
  unfold clean_origin. rewrite !andb_true_iff, !negb_true_iff.
  intros [[[Hne Hc] Hs] He]. apply String.eqb_neq in Hne.
  split; [done|]. split; [done|]. by apply trim_id.
Qed.

(** X15: the allow-list round trip. A list of origins, each non-empty, free
    of commas and of surrounding white space, written as one comma-separated
    string is parsed back to exactly that list, in order; the empty
    configuration gives the empty list. *)
Theorem parse_origins_join l :
  Forall (λ o, clean_origin o = true) l →
  parse_origins (String.concat "," l) = l.
Proof.
  unfold parse_origins. induction 1 as [|x l Hx Hl IH]; [done|].
  destruct (clean_origin_spec x Hx) as (Hne & Hc & Ht).
  apply String.eqb_neq in Hne.
  destruct l as [|y l].
  - simpl. rewrite split_on_whole by done. simpl. by rewrite Ht, Hne.
  - change (String.concat "," (x :: y :: l))
      with (x ++ String "," (String.concat "," (y :: l))).
    rewrite split_on_app by done. simpl map. simpl List.filter.
    rewrite Ht, Hne. simpl. f_equal. exact IH.
Qed.

Lemma parse_origins_join_witness :
  parse_origins (String.concat "," ["https://example.com"; "https://www.example.com"])
  = ["https://example.com"; "https://www.example.com"].
Proof.
  apply (parse_origins_join ["https://example.com"; "https://www.example.com"]).
  repeat constructor.
Defined.

(** ** The upgrade gate *)

(** X16: what an accepted upgrade guarantees, and what a refused one leaves
    behind. An upgrade is let through only if the URL starts with the
    configured path, the Origin header is present and non-empty and is either
    one of the parsed allow-list entries or, with no allow-list, has the
    request's Host as its host, and the address is below its quota, whose
    counter is then raised by exactly one. A refused upgrade (404, 403 or 429)
    leaves every counter as it was. *)
Theorem upgrade_gate url_host g req cnt :
  let origin := or_empty (hdr_origin req) in
  let ip := client_ip req in
  ((on_upgrade url_host g req cnt).2 = Upgraded →
     String.prefix (WS_PATH g) (or_empty (req_url req)) = true
     ∧ origin ≠ ""
     ∧ (parse_origins (ALLOWED_ORIGINS g) ≠ [] → In origin (parse_origins (ALLOWED_ORIGINS g)))
     ∧ (parse_origins (ALLOWED_ORIGINS g) = [] →
        url_host origin = Some (or_empty (hdr_host req)))
     ∧ (on_upgrade url_host g req cnt).1 = <[ip := count_or 0 ip cnt + 1]> cnt
     ∧ (inject_Z (count_or 0 ip cnt + 1) <= MAX_IP_CONNS g)%Q)
  ∧ ((on_upgrade url_host g req cnt).2 ≠ Upgraded →
     (on_upgrade url_host g req cnt).1 = cnt).
Proof.
  cbv zeta. unfold on_upgrade.
  destruct (String.eqb (or_empty (req_url req)) "") eqn:Hu; simpl; [done|].
  destruct (String.prefix (WS_PATH g) (or_empty (req_url req))) eqn:Hp; simpl; [|done].
  destruct (origin_allowed url_host g _ _) eqn:Ho; simpl; [|done].
  destruct (Qlt_bool (MAX_IP_CONNS g) _) eqn:Hq; simpl; [done|].
  split; [|done]. intros _. apply Qlt_bool_false in Hq.
  unfold origin_allowed in Ho.
  pose proof (parse_origins_no_empty (ALLOWED_ORIGINS g)) as Hempty.
  destruct (parse_origins (ALLOWED_ORIGINS g)) as [|o l] eqn:Hl;
    cbn [List.length Nat.eqb negb] in Ho.
  - destruct (String.eqb_spec (or_empty (hdr_origin req)) "") as [|Hne]; [done|].
    destruct (url_host (or_empty (hdr_origin req))) as [h|]; [|done].
    apply String.eqb_eq in Ho. subst h. done.
  - assert (In (or_empty (hdr_origin req)) (o :: l)) as Hin.
    { apply existsb_exists in Ho as (x & Hx & Heq). apply String.eqb_eq in Heq.
      by subst x. }
    repeat split; try done. intros Heq. rewrite Heq in Hin. done.
Qed.

Lemma upgrade_gate_witness :
  on_upgrade example_url_host production_gateway
    (upgrade_from "https://www.example.com" "example.com" "10.0.0.1") ∅
  = ({["10.0.0.1" := 1]}, Upgraded)
  ∧ on_upgrade example_url_host production_gateway
      (upgrade_from "https://evil.example.com" "example.com" "10.0.0.1")
      {["10.0.0.1" := 1]}
    = ({["10.0.0.1" := 1]}, Forbidden)
  ∧ In "https://www.example.com" (parse_origins (ALLOWED_ORIGINS production_gateway)).
Proof.
  pose proof (upgrade_gate example_url_host production_gateway
                (upgrade_from "https://www.example.com" "example.com" "10.0.0.1") ∅)
    as [H1 _].
  pose proof (upgrade_gate example_url_host production_gateway
                (upgrade_from "https://evil.example.com" "example.com" "10.0.0.1")
                {["10.0.0.1" := 1]}) as [_ H2].
  cbv zeta in *.
  destruct (H1 eq_refl) as (_ & _ & Hin & _ & Hcnt & _).
  split; [|split].
  - apply injective_projections; [exact Hcnt|reflexivity].
  - apply injective_projections; [apply H2; discriminate|reflexivity].
  - apply Hin. discriminate.
Defined.

(** ** The per-IP counter *)

Lemma filter_delete_length {A} (P : A → bool) (l : list A) i r :
  l !! i = Some r →
  (List.length (List.filter P (delete i l))
   = List.length (List.filter P l) - (if P r then 1 else 0))%nat
  ∧ (P r = true → 1 ≤ List.length (List.filter P l))%nat.
Proof.
  revert i. induction l as [|x l IH]; intros i Hi; [done|].
  destruct i as [|i]; simpl in *.
  - injection Hi as ->. destruct (P r); simpl; split; intros; lia.
  - destruct (IH i Hi) as [H1 H2]. destruct (P x); simpl; split; intros; try lia.
    + destruct (P r); [|lia]. specialize (H2 eq_refl). lia.
    + auto.
Qed.

Lemma count_or_exact g s ip d :
  counts_exact g s → 0 < d →
  count_or d ip (ipConnCount s) = if open_from ip s =? 0 then d else open_from ip s.
Proof.
  intros Hs Hd. unfold count_or. rewrite (proj1 (Hs ip)).
  destruct (open_from ip s =? 0) eqn:E; [done|]. by rewrite E.
Qed.

Lemma count_or_zero g s ip :
  counts_exact g s → count_or 0 ip (ipConnCount s) = open_from ip s.
Proof.
  intros Hs. unfold count_or. rewrite (proj1 (Hs ip)).
  destruct (open_from ip s =? 0) eqn:E; [|by rewrite E].
  apply Z.eqb_eq in E. done.
Qed.

Lemma open_from_nonneg ip s : 0 ≤ open_from ip s.
Proof. unfold open_from. lia. Qed.

Lemma open_from_cons ip cnt req s :
  open_from ip (Gateway cnt (req :: open_reqs s))
  = open_from ip s + (if String.eqb (client_ip req) ip then 1 else 0).
Proof. unfold open_from. simpl. destruct (String.eqb _ _); simpl; lia. Qed.

Lemma open_from_delete ip cnt i req s :
  open_reqs s !! i = Some req →
  open_from ip (Gateway cnt (delete i (open_reqs s)))
  = open_from ip s - (if String.eqb (client_ip req) ip then 1 else 0)
  ∧ (client_ip req = ip → 1 ≤ open_from ip s).
Proof.
  intros Hi. unfold open_from. simpl.
  destruct (filter_delete_length (λ r, String.eqb (client_ip r) ip) _ _ _ Hi)
    as [Hlen Hpos]. simpl in *. split.
  - destruct (String.eqb (client_ip req) ip); [specialize (Hpos eq_refl)|]; lia.
  - intros <-. rewrite String.eqb_refl in Hpos. specialize (Hpos eq_refl). lia.
Qed.

Lemma gw_step_counts url_host g ev s :
  counts_exact g s →
  addresses_stable url_host g [ev] s →
  counts_exact g (gw_step url_host g ev s).1.
Proof.
  intros Hs [Hstable _]. destruct ev as [req|i addr]; simpl.
  - unfold on_upgrade.
    destruct (_ || _); [done|]. destruct (negb _); [done|].
    rewrite (count_or_zero g s) by done.
    destruct (Qlt_bool _ _) eqn:Hq; [done|]. apply Qlt_bool_false in Hq.
    simpl. intros ip. rewrite open_from_cons. simpl.
    pose proof (open_from_nonneg ip s).
    destruct (String.eqb_spec (client_ip req) ip) as [Heq|Hne].
    + rewrite Heq in *. rewrite lookup_insert_eq.
      destruct (open_from ip s + 1 =? 0) eqn:E; [lia|]. done.
    + rewrite lookup_insert_ne by done. rewrite Z.add_0_r. apply Hs.
  - destruct (open_reqs s !! i) as [req|] eqn:Hi; [|done]. simpl.
    unfold release_ip. rewrite Hstable. set (ip0 := client_ip req).
    destruct (open_from_delete ip0 (ipConnCount s) i req s Hi) as [_ Hpos].
    specialize (Hpos eq_refl).
    rewrite (count_or_exact g s ip0 1) by (done || lia).
    destruct (open_from ip0 s =? 0) eqn:E0; [lia|].
    intros ip.
    destruct (open_from_delete ip
                (if open_from ip0 s - 1 <=? 0 then delete ip0 (ipConnCount s)
                 else <[ip0 := open_from ip0 s - 1]> (ipConnCount s)) i req s Hi)
      as [-> _].
    fold ip0. destruct (String.eqb_spec ip0 ip) as [<-|Hne].
    + destruct (open_from ip0 s - 1 <=? 0) eqn:Ec; simpl.
      * rewrite lookup_delete_eq.
        assert (open_from ip0 s - 1 = 0) as -> by lia. done.
      * rewrite lookup_insert_eq.
        destruct (open_from ip0 s - 1 =? 0) eqn:E1; [lia|]. split; [done|].
        intros _. destruct (Hs ip0) as [_ Hq]. specialize (Hq ltac:(lia)).
        eapply Qle_trans; [|exact Hq]. rewrite <- Zle_Qle. lia.
    + rewrite Z.sub_0_r.
      destruct (_ <=? 0); simpl;
        [rewrite lookup_delete_ne by done|rewrite lookup_insert_ne by done];
        apply Hs.
Qed.

(** X17: the per-IP counter is exact. Starting with no connection, after
    any sequence of upgrades and closes in which each close reads the client
    address its upgrade read, the counter of every address equals the number
    of its counted upgrades that no close has released yet (with no entry
    left when that is zero), and this number never exceeds MAX_IP_CONNS. *)
Theorem ip_counter_is_exact url_host g evs :
  addresses_stable url_host g evs (Gateway ∅ []) →
  let s := gw_run url_host g evs (Gateway ∅ []) in
  ∀ ip, ipConnCount s !! ip
        = (if open_from ip s =? 0 then None else Some (open_from ip s))
        ∧ (0 < open_from ip s → (inject_Z (open_from ip s) <= MAX_IP_CONNS g)%Q).
Proof.
  assert (counts_exact g (Gateway ∅ [])) as Hinit.
  { intros ip. simpl. split; [done|]. unfold open_from. simpl. lia. }
  revert Hinit. generalize (Gateway ∅ []) as s.
  induction evs as [|ev evs IH]; intros s Hs Hst; [exact Hs|].
  destruct Hst as [Hev Hst]. simpl. apply IH; [|done].
  apply gw_step_counts; [done|]. by split.
Qed.

Lemma ip_counter_is_exact_witness :
  let s := gw_run example_url_host production_gateway
             [GwUpgrade (upgrade_from "https://example.com" "example.com" "10.0.0.1");
              GwUpgrade (upgrade_from "https://example.com" "example.com" "10.0.0.1");
              GwUpgrade (upgrade_from "https://example.com" "example.com" "10.0.0.1");
              GwClose 0 (Some "10.0.0.1");
              GwUpgrade (upgrade_from "https://example.com" "example.com" "10.0.0.2")]
             (Gateway ∅ []) in
  ipConnCount s !! "10.0.0.1" = Some 1 ∧ open_from "10.0.0.1" s = 1
  ∧ ipConnCount s !! "10.0.0.2" = Some 1 ∧ ipConnCount s !! "10.0.0.3" = None.
Proof.
  cbv zeta.
  pose proof (ip_counter_is_exact example_url_host production_gateway
    [GwUpgrade (upgrade_from "https://example.com" "example.com" "10.0.0.1");
     GwUpgrade (upgrade_from "https://example.com" "example.com" "10.0.0.1");
     GwUpgrade (upgrade_from "https://example.com" "example.com" "10.0.0.1");
     GwClose 0 (Some "10.0.0.1");
     GwUpgrade (upgrade_from "https://example.com" "example.com" "10.0.0.2")]) as H.
  assert (Hst : addresses_stable example_url_host production_gateway
    [GwUpgrade (upgrade_from "https://example.com" "example.com" "10.0.0.1");
     GwUpgrade (upgrade_from "https://example.com" "example.com" "10.0.0.1");
     GwUpgrade (upgrade_from "https://example.com" "example.com" "10.0.0.1");
     GwClose 0 (Some "10.0.0.1");
     GwUpgrade (upgrade_from "https://example.com" "example.com" "10.0.0.2")]
    (Gateway ∅ [])) by (vm_compute; repeat split).
  specialize (H Hst). cbv zeta in H.
  destruct (H "10.0.0.1") as [H1 _]. destruct (H "10.0.0.2") as [H2 _].
  destruct (H "10.0.0.3") as [H3 _].
  split; [rewrite H1; vm_compute; reflexivity|].
  split; [vm_compute; reflexivity|].
  split; [rewrite H2; vm_compute; reflexivity|].
  rewrite H3. vm_compute. reflexivity.
Defined.

(** ** [calcPairs] *)

Lemma count_entry_key m acc entry :
  count_entry m acc entry
  = match entry_key m entry with
    | Some k => if bool_decide (k ∈ acc.1) then acc else ({[k]} ∪ acc.1, acc.2 + 1)
    | None => acc
    end.
Proof.
  unfold count_entry, entry_key. destruct entry.2 as [b|]; [|done].
  destruct (String.eqb b ""); [done|]. by destruct (bool_decide (m !! b = _)).
Qed.

Lemma foldl_count_entry m entries :
  ∀ (seen : gset string) (n : Z),
    foldl (count_entry m) (seen, n) entries
    = (seen ∪ list_to_set (omap (entry_key m) entries),
       n + Z.of_nat (size (list_to_set (omap (entry_key m) entries) ∖ seen))).
Proof.
  induction entries as [|entry entries IH]; intros seen n; simpl.
  - rewrite union_empty_r_L.
    assert ((∅ : gset string) ∖ seen = ∅) as -> by set_solver.
    rewrite size_empty. f_equal. lia.
  - rewrite count_entry_key. destruct (entry_key m entry) as [k|]; simpl; [|apply IH].
    destruct (bool_decide (k ∈ seen)) eqn:Hk.
    + apply bool_decide_eq_true in Hk. rewrite IH. f_equal; [set_solver|].
      do 2 f_equal. f_equal. set_solver.
    + apply bool_decide_eq_false in Hk. rewrite IH. f_equal; [set_solver|].
      change (list_omap _ _ (entry_key m) entries) with (omap (entry_key m) entries).
      generalize (list_to_set (omap (entry_key m) entries) : gset string). intros K.
      assert (({[k]} ∪ K) ∖ seen = {[k]} ∪ (K ∖ ({[k]} ∪ seen))) as Heq.
      { apply set_eq. intros x.
        rewrite !elem_of_difference, !elem_of_union, !elem_of_difference, !elem_of_union,
          !elem_of_singleton.
        destruct (decide (x = k)) as [->|]; tauto. }
      rewrite Heq, (size_union {[k]} (K ∖ ({[k]} ∪ seen))), size_singleton; [lia|].
      intros x. rewrite elem_of_singleton, elem_of_difference, elem_of_union,
        elem_of_singleton. tauto.
Qed.

Lemma calcPairs_over_size entries m :
  calcPairs_over entries m
  = Z.of_nat (size (list_to_set (omap (entry_key m) entries) : gset string)).
Proof.
  unfold calcPairs_over. rewrite foldl_count_entry. simpl.
  by rewrite difference_empty_L.
Qed.

Lemma pair_key_sym a b : pair_key a b = pair_key b a.
Proof.
  unfold pair_key, String.ltb. rewrite (String.compare_antisym a b).
  destruct (String.compare b a) eqn:E; simpl; try done.
  apply String.compare_eq_iff in E. by subst.
Qed.

(** X18: the pairs gauge does not depend on the order in which the Map is
    iterated: visiting the same entries in any other order gives the same
    count; and the two halves of a pairing are remembered under one key,
    whichever is visited first. *)
Theorem calcPairs_order_independent entries entries' m a b :
  entries ≡ₚ entries' →
  calcPairs_over entries m = calcPairs_over entries' m
  ∧ pair_key a b = pair_key b a.
Proof.
  intros Hp. split; [|apply pair_key_sym].
  rewrite !calcPairs_over_size. do 2 f_equal.
  apply list_to_set_perm_L. by rewrite Hp.
Qed.

Lemma calcPairs_order_independent_witness :
  calcPairs_over [("A", Some "B"); ("B", Some "A"); ("C", None)]
    {["A" := Some "B"; "B" := Some "A"; "C" := None]}
  = calcPairs_over [("C", None); ("B", Some "A"); ("A", Some "B")]
      {["A" := Some "B"; "B" := Some "A"; "C" := None]}
  ∧ pair_key "A" "B" = pair_key "B" "A".
Proof.
  apply (calcPairs_order_independent
           [("A", Some "B"); ("B", Some "A"); ("C", None)]
           [("C", None); ("B", Some "A"); ("A", Some "B")]).
  rewrite (Permutation_swap _ _ []). apply (Permutation_cons_append [_; _]).
Defined.

Lemma app_bar_inj a a' b b' :
  has_char "|" a = false → has_char "|" a' = false →
  a ++ String "|" b = a' ++ String "|" b' → a = a' ∧ b = b'.
Proof.
  revert a'. induction a as [|ch a IH]; intros [|ch' a']; simpl.
  - intros _ _ [= ->]. done.
  - intros _ H [= <- _]. by rewrite Ascii.eqb_refl in H.
  - intros H _ [= -> _]. by rewrite Ascii.eqb_refl in H.
  - intros H H' [= -> Heq].
    apply orb_false_iff in H as [_ H]. apply orb_false_iff in H' as [_ H'].
    destruct (IH a' H H' Heq) as [-> ->]. done.
Qed.

Lemma pair_key_leb a b :
  String.leb a b = true → pair_key a b = a ++ String "|" b.
Proof.
  unfold pair_key, String.leb, String.ltb.
  destruct (String.compare a b) eqn:E; try done.
  apply String.compare_eq_iff in E. by subst.
Qed.

Lemma leb_total a b : String.leb a b = false → String.leb b a = true.
Proof.
  unfold String.leb. rewrite (String.compare_antisym a b).
  by destruct (String.compare b a).
Qed.

(** X19: each mutual pairing is counted exactly once. When every id in the
    pairing map is non-empty and contains no ['|'] (as the ids minted by
    [uuidv4] are), [calcPairs] returns the number of entries [a -> b] with
    [b -> a] and [a <= b]: one per mutual pair, none for a peer that is Free
    or whose partner does not point back. *)
Theorem calcPairs_counts_each_pair_once (m : gmap string (option string)) :
  (∀ a v, m !! a = Some v → a ≠ "" ∧ has_char "|" a = false) →
  calcPairs m = Z.of_nat (List.length (List.filter (canonical_half m) (map_to_list m))).
Proof.
  intros Hids. unfold calcPairs. rewrite calcPairs_over_size. f_equal.
  set (C := List.filter (canonical_half m) (map_to_list m)).
  set (keyc := λ entry : string * option string,
                 entry.1 ++ String "|" (default "" entry.2)).
  assert (∀ entry, entry ∈ C →
            ∃ a b, entry = (a, Some b) ∧ m !! a = Some (Some b)
                   ∧ m !! b = Some (Some a) ∧ String.leb a b = true) as HC.
  { intros [a ob] Hin. apply list_elem_of_In, filter_In in Hin as [Hin Hc].
    apply list_elem_of_In, elem_of_map_to_list in Hin.
    unfold canonical_half in Hc. simpl in Hc. destruct ob as [b|]; [|done].
    apply andb_true_iff in Hc as [Hb Hle]. apply bool_decide_eq_true in Hb.
    exists a, b. done. }
  assert (list_to_set (omap (entry_key m) (map_to_list m))
          = (list_to_set (map keyc C) : gset string)) as ->.
  { apply set_eq. intros k. rewrite !elem_of_list_to_set, list_elem_of_omap.
    rewrite list_elem_of_In, in_map_iff. split.
    - intros ([a ob] & Hin & Hk). apply elem_of_map_to_list in Hin.
      unfold entry_key in Hk. simpl in Hk. destruct ob as [b|]; [|done].
      destruct (String.eqb_spec b "") as [|Hb]; [done|].
      destruct (bool_decide (m !! b = Some (Some a))) eqn:Hm; [|done].
      apply bool_decide_eq_true in Hm. injection Hk as <-.
      destruct (String.leb a b) eqn:Hle.
      + exists (a, Some b). split; [by unfold keyc; simpl; rewrite pair_key_leb|].
        apply filter_In. split; [by apply list_elem_of_In, elem_of_map_to_list|].
        unfold canonical_half. simpl. by rewrite bool_decide_eq_true_2, Hle.
      + apply leb_total in Hle. exists (b, Some a). split.
        * unfold keyc. simpl. by rewrite pair_key_sym, pair_key_leb.
        * apply filter_In. split; [by apply list_elem_of_In, elem_of_map_to_list|].
          unfold canonical_half. simpl. by rewrite bool_decide_eq_true_2, Hle.
    - intros (entry & <- & Hin). apply list_elem_of_In in Hin.
      destruct (HC entry Hin) as (a & b & -> & Ha & Hb & Hle).
      exists (a, Some b). split; [by apply elem_of_map_to_list|].
      unfold entry_key, keyc. simpl.
      destruct (Hids b _ Hb) as [Hne _]. apply String.eqb_neq in Hne. rewrite Hne.
      rewrite bool_decide_eq_true_2 by done. by rewrite pair_key_leb. }
  rewrite size_list_to_set.
  - by rewrite length_map.
  - change (map keyc C) with (keyc <$> C). apply NoDup_fmap_2_strong.
    + intros e1 e2 H1 H2 Hk.
      destruct (HC e1 H1) as (a & b & -> & Ha & _ & _).
      destruct (HC e2 H2) as (a' & b' & -> & Ha' & _ & _).
      unfold keyc in Hk. simpl in Hk.
      destruct (app_bar_inj a a' b b') as [-> ->]; try done.
      * by destruct (Hids a _ Ha).
      * by destruct (Hids a' _ Ha').
    + apply NoDup_ListNoDup, List.NoDup_filter, NoDup_ListNoDup, NoDup_map_to_list.
Qed.

Lemma calcPairs_counts_each_pair_once_witness :
  calcPairs one_pair_map
  = Z.of_nat (List.length (List.filter (canonical_half one_pair_map)
                             (map_to_list one_pair_map)))
  ∧ calcPairs one_pair_map = 1.
Proof.
  split; [|vm_compute; reflexivity].
  apply (calcPairs_counts_each_pair_once one_pair_map).
  intros a v H. apply elem_of_map_to_list in H. vm_compute in H.
  repeat (apply elem_of_cons in H as [[= -> ->]|H]; [split; [discriminate|reflexivity]|]).
  by apply elem_of_nil in H.
Defined.

(** ** Bursts of arbitrary frames *)

Lemma burst_closes_any len e id now frames :
  frames ≠ [] →
  ∀ c st (B : Q),
    (0 < rate c)%Q →
    (avail now c <= B)%Q →
    (B < inject_Z (Z.of_nat (List.length frames)))%Q →
    In (CloseWs id 1008 "rate") (feed len e id (map (λ d, (now, d)) frames) c st).2.
Proof.
  induction frames as [|d rest IH]; intros Hne c st B Hr HB Hlen; [done|].
  simpl. destruct (on_message_step len e id now d c st Hr)
    as [[Hlt ->]|[Hle (tm & st' & out & -> & _ & _)]].
  - destruct (feed _ _ _ _ _ _) as [[c2 st2] out2]. simpl. by left.
  - set (c1 := set_timer tm _).
    assert (rest ≠ []) as Hne'.
    { intros ->. change (inject_Z (Z.of_nat (List.length [d]))) with 1%Q in Hlen. lra. }
    assert (inject_Z (Z.of_nat (List.length (d :: rest)))
            == inject_Z (Z.of_nat (List.length rest)) + 1)%Q as Hs.
    { simpl List.length. rewrite Nat2Z.inj_succ, <- Z.add_1_r, inject_Z_plus. reflexivity. }
    rewrite Hs in Hlen.
    assert (avail now c1 <= B - 1)%Q as HB1.
    { eapply Qle_trans; [apply (avail_no_elapsed now c1); simpl; lia|].
      simpl. lra. }
    specialize (IH Hne' c1 st' (B - 1)%Q Hr HB1 ltac:(lra)).
    destruct (feed _ _ _ _ c1 st') as [[c2 st2] out2]. simpl in *.
    apply in_or_app. by right.
Qed.

(** X20: the limiter cuts every burst. On a connection whose rate is
    positive, frames of any content that arrive at the same instant and are
    more numerous than the bucket capacity make the server close the
    connection with 1008 "rate", whatever the bucket held before. *)
Theorem burst_longer_than_capacity_closes len e id now frames c st :
  (0 < rate c)%Q →
  frames ≠ [] →
  (burst c < inject_Z (Z.of_nat (List.length frames)))%Q →
  In (CloseWs id 1008 "rate") (feed len e id (map (λ d, (now, d)) frames) c st).2.
Proof.
  intros Hr Hne Hlen.
  apply (burst_closes_any len e id now frames Hne c st (burst c)); try done.
  apply avail_le_burst.
Qed.

Lemma burst_longer_than_capacity_closes_witness :
  In (CloseWs "A" 1008 "rate")
    (feed quoted_length default_env "A"
       (map (λ d, (7, d))
          [Some (envelope "B" (of_kind "candidate"));
           Some (envelope "B" (of_kind "candidate"));
           Some (envelope "B" (of_kind "candidate"))])
       (Conn true 20 2 2 0 Pending) two_free).2.
Proof.
  apply (burst_longer_than_capacity_closes quoted_length default_env "A" 7
           [Some (envelope "B" (of_kind "candidate"));
            Some (envelope "B" (of_kind "candidate"));
            Some (envelope "B" (of_kind "candidate"))]
           (Conn true 20 2 2 0 Pending) two_free).
  - reflexivity.
  - discriminate.
  - reflexivity.
Defined.

(** ** A stale dialing entry *)

Lemma relay_local_keeps_stale len id to payload c st a b :
  partner_of a st = Some b → id ≠ b → to ≠ b →
  partner (relay_local len id to payload c st).1.2 !! a = partner st !! a.
Proof.
  intros Ha Hid Hto.
  assert (∀ x, x ≠ b → with_other (Some b) x = true ∧ is_peer (Some b) x = false) as Hb.
  { intros x Hx. simpl. apply not_eq_sym, String.eqb_neq in Hx. by rewrite Hx. }
  destruct (Hb id Hid) as [Hwi Hpi]. destruct (Hb to Hto) as [Hwt Hpt].
  destruct (decide (a = id)) as [->|Hai]; [|destruct (decide (a = to)) as [->|Hat]].
  - unfold relay_local. rewrite Ha, Hwt, Hpt.
    destruct (negb (existsb _ _)); [done|].
    destruct (oversized _ _ "sdp" _); [done|].
    destruct (oversized _ _ "candidate" _); [done|].
    destruct (is_str _ "offer"); [done|]. destruct (is_str _ "answer"); [done|].
    cbn [andb orb]. rewrite andb_false_r.
    destruct (is_str _ "bye" && is_peer (partner_of to st) id) eqn:Hbye;
      [|by destruct (is_str _ "candidate" && _)].
    apply andb_true_iff in Hbye as [_ Hbye].
    assert (to ≠ id) as Hne.
    { intros ->. by rewrite Ha, Hpi in Hbye. }
    by destruct (is_str _ "candidate" && _); simpl; rewrite lookup_insert_ne.
  - unfold relay_local. rewrite Ha, Hwi, Hpi.
    destruct (negb (existsb _ _)); [done|].
    destruct (oversized _ _ "sdp" _); [done|].
    destruct (oversized _ _ "candidate" _); [done|].
    rewrite !orb_true_r.
    destruct (is_str _ "offer"); [done|]. destruct (is_str _ "answer"); [done|].
    cbn [andb orb]. rewrite andb_false_r.
    destruct (is_str _ "bye" && is_peer (partner_of id st) to);
      destruct (is_str _ "candidate" && _); simpl;
      rewrite ?andb_false_r, ?lookup_insert_ne by done; done.
  - by apply relay_local_partner_other.
Qed.

Lemma on_message_keeps_stale len e id now data c st a b :
  partner_of a st = Some b → id ≠ b → b ∉ peers st →
  partner (on_message len e id now data c st).1.2 !! a = partner st !! a.
Proof.
  intros Ha Hid Hb. unfold on_message.
  destruct (rate_check now c) as [c1|c1]; [done|].
  unfold handle_frame. destruct data as [msg|]; [|done]. rewrite !prop_or_empty.
  destruct (prop "to" (Some msg)) as [[| | |to| |]|]; try done.
  destruct (prop "payload" (Some msg)) as [payload|]; [|done].
  destruct (negb _ || negb _); [done|].
  destruct (is_str _ "list"); [done|].
  destruct (bool_decide (to ∈ peers st)) eqn:Hin; [|done]. simpl.
  apply bool_decide_eq_true in Hin.
  apply (relay_local_keeps_stale _ _ _ _ _ _ a b); [done|done|]. by intros ->.
Qed.

Lemma step_keeps_stale len e ev s a b :
  registry_ok s → a ≠ b →
  partner_of a (rstate s) = Some b → b ∉ peers (rstate s) →
  resets_dialing a b ev = false →
  partner_of a (rstate (step len e ev s).1) = Some b
  ∧ b ∉ peers (rstate (step len e ev s).1).
Proof.
  intros [Hp Hc] Hab Ha Hb Hev.
  assert (∀ st', partner st' !! a = partner (rstate s) !! a → partner_of a st' = Some b)
    as Hkeep.
  { intros st' Heq. unfold partner_of in *. by rewrite Heq. }
  assert (∀ d x, conns s !! d = Some x → d ≠ b) as Hconn.
  { intros d x Hd ->. apply Hb. rewrite <- Hc. apply elem_of_dom. eauto. }
  destruct ev as [d now|d now data|d|d|d| |ch m]; simpl in *.
  - apply orb_false_iff in Hev as [Hda Hdb].
    apply String.eqb_neq in Hda, Hdb. split.
    + apply Hkeep. simpl. by rewrite lookup_insert_ne.
    + rewrite elem_of_union, elem_of_singleton. intros [?|?]; congruence.
  - destruct (conns s !! d) as [c|] eqn:Hd; [|done].
    pose proof (on_message_keeps_stale len e d now data c (rstate s) a b Ha
                  (Hconn _ _ Hd) Hb) as Hk.
    pose proof (proj1 (on_message_registries len e d now data c (rstate s))) as Hpe.
    destruct (on_message _ _ _ _ _ _ _) as [[c' st'] out]. simpl in *.
    split; [by apply Hkeep|by rewrite Hpe].
  - apply String.eqb_neq in Hev.
    destruct (conns s !! d) as [c|] eqn:Hd; [|done]. split.
    + apply Hkeep.
      etransitivity; [apply (on_close_partner_other e d c (rstate s) a); congruence|].
      rewrite bool_decide_eq_false_2; [done|].
      intros [_ Hx]. unfold partner_of in Ha. rewrite Hx in Ha.
      destruct (String.eqb d ""); [done|]. injection Ha as ->.
      by apply (Hconn _ _ Hd).
    + intros Hin. apply (on_close_peers e d c (rstate s) b) in Hin. tauto.
  - destruct (conns s !! d) as [c|]; [|done]. by destruct (on_idle_timeout d c).
  - by destruct (conns s !! d).
  - done.
  - pose proof (on_bus_message_registries e ch m (rstate s)) as (H1 & H2 & _).
    destruct (on_bus_message e ch m (rstate s)) as [st' out]. simpl in *.
    split; [apply Hkeep; by rewrite H2|by rewrite H1].
Qed.

(** X21: a stale dialing entry is permanent. In a state where the registries
    agree, if A points at a peer B that is no longer connected, then no
    sequence of events changes that, short of A closing or a new connection
    being given the id of A or B: no frame from A or from anyone else, no
    close of another peer, no timer and no bus message resets Pairing[A]. *)
Theorem stale_dialing_is_permanent len e evs s a b :
  registry_ok s → a ≠ b →
  partner_of a (rstate s) = Some b → b ∉ peers (rstate s) →
  Forall (λ ev, resets_dialing a b ev = false) evs →
  partner_of a (rstate (run len e evs s).1) = Some b
  ∧ b ∉ peers (rstate (run len e evs s).1).
Proof.
  intros Hs Hab Ha Hb Hevs. revert s Hs Ha Hb.
  induction Hevs as [|ev evs Hev _ IH]; intros s Hs Ha Hb; [done|].
  simpl. pose proof (step_registry_ok len e ev s Hs) as Hs1.
  destruct (step_keeps_stale len e ev s a b Hs Hab Ha Hb Hev) as [Ha1 Hb1].
  destruct (step len e ev s) as [s1 out1]. specialize (IH s1 Hs1 Ha1 Hb1).
  by destruct (run len e evs s1).
Qed.

Lemma stale_dialing_is_permanent_witness :
  let evs := [EvMessage "A" 2 (Some (envelope "C" (of_kind "offer")));
              EvMessage "A" 3 (Some (envelope "B" (of_kind "bye")));
              EvMessage "C" 4 (Some (envelope "A" (of_kind "bye")));
              EvMessage "C" 5 (Some (envelope "A" (of_kind "answer")));
              EvClose "C"; EvIdle "A"; EvSweep] in
  partner_of "A" (rstate (run quoted_length default_env evs callee_left).1) = Some "B"
  ∧ "B" ∉ peers (rstate (run quoted_length default_env evs callee_left).1).
Proof.
  cbv zeta.
  apply (stale_dialing_is_permanent quoted_length default_env _ callee_left "A" "B").
  - apply run_registry_ok. split; simpl; by rewrite !dom_empty_L.
  - discriminate.
  - vm_compute. reflexivity.
  - apply (bool_decide_unpack ("B" ∉ peers (rstate callee_left))). vm_compute. exact I.
  - repeat constructor.
Defined.
